(** * Scene normalisation of the cello scripts

    A shallow embedding of the bounding-box normalisation block that the
    three scripts [cello/falling.py], [cello/pulling.py] and
    [cello/follow.py] share verbatim (section 6 of each script), of the
    import loops before it and of the loops over the objects after it,
    and the properties of that code.

    Numbers.  Python floats are modelled as exact rationals extended with
    the two infinities and NaN: the block initialises its running minima
    and maxima with [float('inf')] and [float('-inf')], so the infinities
    are values of the program.  Rounding and overflow are not modelled;
    signed zeros are identified.  The host stores [obj.scale] and
    [obj.location] in single precision: a property that says which
    number the block leaves there is stated for the numbers that single
    precision holds exactly ([binary32]), and the property about the
    signs of the scales for products that single precision does not round
    to zero ([scale_in_range]).

    Objects.  The host objects are shared references: the same object is
    appended to [all_objects] and to [ecs_objects] (or [cell_objects]).
    The model keeps the objects in a heap (a list indexed by handle) and
    the three Python lists as lists of handles, so that a mutation made
    through [all_objects] is seen through [ecs_objects]. *)

From Stdlib Require Import QArith Qabs Lqa String.
From stdpp Require Import base option list.

Local Open Scope Q_scope.

(** ** Floats *)

Inductive float : Type :=
| NaN : float
| NInf : float
| Fin (q : Q) : float
| PInf : float.

Definition Qltb (a b : Q) : bool := negb (Qle_bool b a).

(** [a < b] on floats; every comparison with NaN is false. *)
Definition float_ltb (a b : float) : bool :=
  match a, b with
  | Fin x, Fin y => Qltb x y
  | NInf, Fin _ => true
  | NInf, PInf => true
  | Fin _, PInf => true
  | _, _ => false
  end.

(** Python's [min(a, b)]: the first argument unless the second is
    strictly smaller. *)
Definition py_min (a b : float) : float := if float_ltb b a then b else a.

(** Python's [max(a, b)]: the first argument unless the second is
    strictly larger. *)
Definition py_max (a b : float) : float := if float_ltb a b then b else a.

(** Python's [min(a, b, c)]. *)
Definition py_min3 (a b c : float) : float := py_min (py_min a b) c.

Definition float_neg (a : float) : float :=
  match a with
  | NaN => NaN
  | NInf => PInf
  | Fin x => Fin (- x)
  | PInf => NInf
  end.

Definition float_add (a b : float) : float :=
  match a, b with
  | NaN, _ | _, NaN => NaN
  | Fin x, Fin y => Fin (x + y)
  | PInf, NInf | NInf, PInf => NaN
  | PInf, _ | _, PInf => PInf
  | NInf, _ | _, NInf => NInf
  end.

Definition float_sub (a b : float) : float := float_add a (float_neg b).

(** An infinity of the sign of [x]; NaN when [x] is zero. *)
Definition inf_of_sign (x : Q) (pos : float) : float :=
  match x ?= 0 with
  | Gt => pos
  | Lt => float_neg pos
  | Eq => NaN
  end.

Definition float_mul (a b : float) : float :=
  match a, b with
  | NaN, _ | _, NaN => NaN
  | Fin x, Fin y => Fin (x * y)
  | Fin x, PInf | PInf, Fin x => inf_of_sign x PInf
  | Fin x, NInf | NInf, Fin x => inf_of_sign x NInf
  | PInf, PInf | NInf, NInf => PInf
  | PInf, NInf | NInf, PInf => NInf
  end.

(** Python's [a / b] on floats: [None] stands for the ZeroDivisionError
    raised when the divisor is zero. *)
Definition py_div (a b : float) : option float :=
  match b with
  | Fin y =>
      if Qeq_bool y 0 then None
      else Some (match a with
                 | NaN => NaN
                 | Fin x => Fin (x / y)
                 | PInf => inf_of_sign y PInf
                 | NInf => inf_of_sign y NInf
                 end)
  | NaN => Some NaN
  | PInf | NInf =>
      Some (match a with
            | Fin _ => Fin 0
            | _ => NaN
            end)
  end.

(** ** Vectors and objects *)

(** [mathutils.Vector] with three components. *)
Record Vector : Type := mkVector { vx : float; vy : float; vz : float }.

(** [v *= k] on a vector: every component is multiplied by [k].  The
    product is the exact one; the host stores it in single precision. *)
Definition vector_imul (v : Vector) (k : float) : Vector :=
  {| vx := float_mul (vx v) k;
     vy := float_mul (vy v) k;
     vz := float_mul (vz v) k |}.

(** The fields of a host object that the block reads or writes, and its
    name.  [bound_box] holds the corners of the local bounding box. *)
Record Object : Type := mkObject {
  name : string;
  bound_box : list Vector;
  location : Vector;
  scale : Vector
}.

(** Modelled from the spec: [obj.matrix_world @ v] is an operation of the
    host application, not of this repository.  Every object has had its
    rotation applied when it was imported ([transform_apply]), and the
    host composes the scale first and the translation after it, so a
    local point [v] is sent to [location + scale * v], axis by axis. *)
Definition matrix_world (o : Object) (v : Vector) : Vector :=
  {| vx := float_add (vx (location o)) (float_mul (vx (scale o)) (vx v));
     vy := float_add (vy (location o)) (float_mul (vy (scale o)) (vy v));
     vz := float_add (vz (location o)) (float_mul (vz (scale o)) (vz v)) |}.

(** ** The scene: a heap of objects and the three lists of the scripts *)

Record Scene : Type := mkScene {
  objects : list Object;
  all_objects : list nat;
  ecs_objects : list nat;
  cell_objects : list nat
}.

(** ** The bounding box of the ECS objects *)

(** The six running variables [ecs_min_x] ... [ecs_max_z]. *)
Record Extent : Type := mkExtent {
  ecs_min_x : float; ecs_min_y : float; ecs_min_z : float;
  ecs_max_x : float; ecs_max_y : float; ecs_max_z : float
}.

Definition extent_init : Extent :=
  {| ecs_min_x := PInf; ecs_min_y := PInf; ecs_min_z := PInf;
     ecs_max_x := NInf; ecs_max_y := NInf; ecs_max_z := NInf |}.

(** The body of the inner loop, for one world-space vertex. *)
Definition extent_step (e : Extent) (world_vertex : Vector) : Extent :=
  {| ecs_min_x := py_min (ecs_min_x e) (vx world_vertex);
     ecs_min_y := py_min (ecs_min_y e) (vy world_vertex);
     ecs_min_z := py_min (ecs_min_z e) (vz world_vertex);
     ecs_max_x := py_max (ecs_max_x e) (vx world_vertex);
     ecs_max_y := py_max (ecs_max_y e) (vy world_vertex);
     ecs_max_z := py_max (ecs_max_z e) (vz world_vertex) |}.

(** [for vertex in obj.bound_box: ...] *)
Definition extent_object (e : Extent) (o : Object) : Extent :=
  fold_left (fun e vertex => extent_step e (matrix_world o vertex))
            (bound_box o) e.

(** [for obj in ecs_objects: ...]; a handle always denotes an object of
    the heap, a dangling one is skipped. *)
Definition extent_objects (heap : list Object) (hs : list nat) (e : Extent)
  : Extent :=
  fold_left (fun e h => match heap !! h with
                        | Some o => extent_object e o
                        | None => e
                        end) hs e.

Definition ecs_extent (sc : Scene) : Extent :=
  extent_objects (objects sc) (ecs_objects sc) extent_init.

Definition ecs_size_x (e : Extent) : float := float_sub (ecs_max_x e) (ecs_min_x e).
Definition ecs_size_y (e : Extent) : float := float_sub (ecs_max_y e) (ecs_min_y e).
Definition ecs_size_z (e : Extent) : float := float_sub (ecs_max_z e) (ecs_min_z e).

Definition min_dimension (e : Extent) : float :=
  py_min3 (ecs_size_x e) (ecs_size_y e) (ecs_size_z e).

(** [scaling_factor = 1.0; if min_dimension > 0: scaling_factor = 1.0 / min_dimension] *)
Definition scaling_factor_of (md : float) : option float :=
  if float_ltb (Fin 0) md then py_div (Fin 1) md else Some (Fin 1).

(** [(lo + hi) / 2 * scaling_factor] *)
Definition center_of (lo hi scaling_factor : float) : option float :=
  half ← py_div (float_add lo hi) (Fin 2);
  Some (float_mul half scaling_factor).

(** ** The two mutating loops *)

Definition rescale_object (k : float) (o : Object) : Object :=
  {| name := name o; bound_box := bound_box o; location := location o;
     scale := vector_imul (scale o) k |}.

(** [obj.location.x -= cx; obj.location.y -= cy; obj.location.z -= cz].
    The differences are the exact ones; the host stores them in single
    precision. *)
Definition shift_object (c : Vector) (o : Object) : Object :=
  {| name := name o; bound_box := bound_box o;
     location := {| vx := float_sub (vx (location o)) (vx c);
                    vy := float_sub (vy (location o)) (vy c);
                    vz := float_sub (vz (location o)) (vz c) |};
     scale := scale o |}.

(** [for obj in hs: obj = f(obj)], in place on the heap. *)
Definition for_each (f : Object → Object) (hs : list nat) (heap : list Object)
  : list Object :=
  fold_left (fun heap h => alter f h heap) hs heap.

Definition rescale_all (k : float) := for_each (rescale_object k).
Definition shift_all (c : Vector) := for_each (shift_object c).

(** ** The block *)

(** The variables the block leaves bound: [scaling_factor] and
    [ecs_center_x], [ecs_center_y], [ecs_center_z]. *)
Record Bindings : Type := mkBindings {
  scaling_factor : float;
  ecs_center : Vector
}.

(** Section 6 of the scripts.  The outer [option] is [None] when an
    exception is raised; the inner one is [None] when the block is
    skipped, which leaves its variables unbound. *)
Definition normalize (sc : Scene) : option (Scene * option Bindings) :=
  match ecs_objects sc with
  | [] => Some (sc, None)
  | _ :: _ =>
      let e := ecs_extent sc in
      k ← scaling_factor_of (min_dimension e);
      let heap1 := rescale_all k (all_objects sc) (objects sc) in
      cx ← center_of (ecs_min_x e) (ecs_max_x e) k;
      cy ← center_of (ecs_min_y e) (ecs_max_y e) k;
      cz ← center_of (ecs_min_z e) (ecs_max_z e) k;
      let c := {| vx := cx; vy := cy; vz := cz |} in
      let heap2 := shift_all c (all_objects sc) heap1 in
      Some ({| objects := heap2; all_objects := all_objects sc;
               ecs_objects := ecs_objects sc;
               cell_objects := cell_objects sc |},
            Some {| scaling_factor := k; ecs_center := c |})
  end.

(** The scene after the block, when no exception was raised. *)
Definition normalized (sc : Scene) : option Scene := fst <$> normalize sc.

(** Modelled from the spec: the host keeps [obj.matrix_world] in a cache
    that it refreshes when it evaluates the scene, not when [obj.scale]
    or [obj.location] is written; the block makes no call that evaluates
    the scene.  [normalize_seen seen sc] is the block run on [sc] while
    the cached matrices are those of the objects of [seen]: the bounding
    box is measured on [seen], the two loops write into [sc]. *)
Definition normalize_seen (seen sc : Scene) : option (Scene * option Bindings) :=
  match ecs_objects sc with
  | [] => Some (sc, None)
  | _ :: _ =>
      let e := extent_objects (objects seen) (ecs_objects sc) extent_init in
      k ← scaling_factor_of (min_dimension e);
      let heap1 := rescale_all k (all_objects sc) (objects sc) in
      cx ← center_of (ecs_min_x e) (ecs_max_x e) k;
      cy ← center_of (ecs_min_y e) (ecs_max_y e) k;
      cz ← center_of (ecs_min_z e) (ecs_max_z e) k;
      let c := {| vx := cx; vy := cy; vz := cz |} in
      let heap2 := shift_all c (all_objects sc) heap1 in
      Some ({| objects := heap2; all_objects := all_objects sc;
               ecs_objects := ecs_objects sc;
               cell_objects := cell_objects sc |},
            Some {| scaling_factor := k; ecs_center := c |})
  end.


(** ** Numeric equality

    Two floats are numerically equal when they are the same special value
    or finite and equal as rationals ([1/2] and [2/4] are the same
    number).  The relation is lifted to vectors, objects and scenes. *)

Definition float_eqb (a b : float) : bool :=
  match a, b with
  | NaN, NaN | NInf, NInf | PInf, PInf => true
  | Fin x, Fin y => Qeq_bool x y
  | _, _ => false
  end.

Definition vector_eqb (u v : Vector) : bool :=
  float_eqb (vx u) (vx v) && float_eqb (vy u) (vy v) && float_eqb (vz u) (vz v).

Fixpoint list_eqb {A : Type} (eqb : A → A → bool) (l k : list A) : bool :=
  match l, k with
  | [], [] => true
  | x :: l, y :: k => eqb x y && list_eqb eqb l k
  | _, _ => false
  end.

Definition object_eqb (o p : Object) : bool :=
  String.eqb (name o) (name p)
  && list_eqb vector_eqb (bound_box o) (bound_box p)
  && vector_eqb (location o) (location p)
  && vector_eqb (scale o) (scale p).

Definition scene_eqb (s t : Scene) : bool :=
  list_eqb object_eqb (objects s) (objects t)
  && list_eqb Nat.eqb (all_objects s) (all_objects t)
  && list_eqb Nat.eqb (ecs_objects s) (ecs_objects t)
  && list_eqb Nat.eqb (cell_objects s) (cell_objects t).


Definition float_eqv (a b : float) : Prop := float_eqb a b = true.
Definition vector_eqv (u v : Vector) : Prop := vector_eqb u v = true.

(** ** Well-formed scenes *)

Definition is_finite (a : float) : bool :=
  match a with Fin _ => true | _ => false end.

Definition vector_finite (v : Vector) : bool :=
  is_finite (vx v) && is_finite (vy v) && is_finite (vz v).

(** A host object has a bounding box with corners (eight of them, in the
    host), and finite coordinates. *)
Definition object_ok (o : Object) : bool :=
  match bound_box o with
  | [] => false
  | _ :: _ => forallb vector_finite (bound_box o)
  end
  && vector_finite (location o) && vector_finite (scale o).

Definition handle_ok (heap : list Object) (h : nat) : bool :=
  match heap !! h with Some _ => true | None => false end.

Fixpoint nodupb (l : list nat) : bool :=
  match l with
  | [] => true
  | x :: l => negb (existsb (Nat.eqb x) l) && nodupb l
  end.

(** The scenes the scripts build: every object is well formed, the lists
    hold handles of the heap, no object is imported twice, and every ECS
    object is also in [all_objects]. *)
Definition scene_ok (sc : Scene) : bool :=
  forallb object_ok (objects sc)
  && forallb (handle_ok (objects sc)) (all_objects sc)
  && nodupb (all_objects sc)
  && forallb (fun h => existsb (Nat.eqb h) (all_objects sc)) (ecs_objects sc).

Definition zero_vector : Vector := {| vx := Fin 0; vy := Fin 0; vz := Fin 0 |}.

(** The world-space bounding box of the ECS objects has a strictly
    positive size on the three axes. *)
Definition positive_extent (sc : Scene) : bool :=
  float_ltb (Fin 0) (ecs_size_x (ecs_extent sc))
  && float_ltb (Fin 0) (ecs_size_y (ecs_extent sc))
  && float_ltb (Fin 0) (ecs_size_z (ecs_extent sc)).

(** The centre of the bounding box of the ECS objects, recomputed from the
    transforms the objects have in [sc]. *)
Definition extent_center (e : Extent) : option Vector :=
  cx ← py_div (float_add (ecs_min_x e) (ecs_max_x e)) (Fin 2);
  cy ← py_div (float_add (ecs_min_y e) (ecs_max_y e)) (Fin 2);
  cz ← py_div (float_add (ecs_min_z e) (ecs_max_z e)) (Fin 2);
  Some {| vx := cx; vy := cy; vz := cz |}.

(** ** Concrete scenes *)

Definition vec (x y z : Q) : Vector := {| vx := Fin x; vy := Fin y; vz := Fin z |}.

(** The eight corners of the box from [lo] to [hi], in the host's order. *)
Definition box_corners (x0 y0 z0 x1 y1 z1 : Q) : list Vector :=
  [ vec x0 y0 z0; vec x0 y0 z1; vec x0 y1 z1; vec x0 y1 z0;
    vec x1 y0 z0; vec x1 y0 z1; vec x1 y1 z1; vec x1 y1 z0 ].

Definition imported (n : string) (corners : list Vector) : Object :=
  {| name := n; bound_box := corners;
     location := zero_vector; scale := vec 1 1 1 |}.

(** One ECS object, a 2 x 4 x 8 box with a corner at the world origin. *)
Definition scene_box248 : Scene :=
  {| objects := [ imported "ECS_a.ply" (box_corners 0 0 0 2 4 8) ];
     all_objects := [0%nat]; ecs_objects := [0%nat]; cell_objects := [] |}.

(** The same box centred on the world origin, and a cell beside it. *)
Definition scene_box248_cell : Scene :=
  {| objects := [ imported "ECS_a.ply" (box_corners (-1) (-2) (-4) 1 2 4);
                  imported "Cell_b.ply" (box_corners 3 3 3 4 5 6) ];
     all_objects := [0%nat; 1%nat]; ecs_objects := [0%nat];
     cell_objects := [1%nat] |}.

(** Two ECS cubes of side 2 whose translations differ. *)
Definition cube_a : Object := imported "ECS_a.ply" (box_corners 0 0 0 2 2 2).

Definition cube_b : Object :=
  {| name := "ECS_b.ply"; bound_box := box_corners 0 0 0 2 2 2;
     location := vec 10 10 10; scale := vec 1 1 1 |}.

Definition scene_two_cubes : Scene :=
  {| objects := [ cube_a; cube_b ];
     all_objects := [0%nat; 1%nat]; ecs_objects := [0%nat; 1%nat];
     cell_objects := [] |}.

(** No ECS object at all, one cell. *)
Definition scene_no_ecs : Scene :=
  {| objects := [ imported "Cell_b.ply" (box_corners 3 3 3 4 5 6) ];
     all_objects := [0%nat]; ecs_objects := []; cell_objects := [0%nat] |}.

(** One ECS object whose corners all coincide. *)
Definition scene_point : Scene :=
  {| objects := [ {| name := "ECS_a.ply"; bound_box := box_corners 3 5 7 3 5 7;
                     location := vec 1 1 1; scale := vec 2 2 2 |} ];
     all_objects := [0%nat]; ecs_objects := [0%nat]; cell_objects := [] |}.

(** The two loops of the block, for given values of the variables. *)
Definition apply_bindings (b : Bindings) (sc : Scene) : Scene :=
  {| objects := shift_all (ecs_center b) (all_objects sc)
                  (rescale_all (scaling_factor b) (all_objects sc) (objects sc));
     all_objects := all_objects sc;
     ecs_objects := ecs_objects sc;
     cell_objects := cell_objects sc |}.

(** The values the block computes from the bounding box [e]. *)
Definition bindings_of (e : Extent) : option Bindings :=
  k ← scaling_factor_of (min_dimension e);
  cx ← center_of (ecs_min_x e) (ecs_max_x e) k;
  cy ← center_of (ecs_min_y e) (ecs_max_y e) k;
  cz ← center_of (ecs_min_z e) (ecs_max_z e) k;
  Some {| scaling_factor := k;
          ecs_center := {| vx := cx; vy := cy; vz := cz |} |}.

(** [u - v] on vectors. *)
Definition vector_sub (u v : Vector) : Vector :=
  {| vx := float_sub (vx u) (vx v);
     vy := float_sub (vy u) (vy v);
     vz := float_sub (vz u) (vz v) |}.

(** The world-space vertices that the two nested loops of the bounding
    box visit, in the order they visit them. *)
Definition world_vertices (heap : list Object) (hs : list nat) : list Vector :=
  flat_map (fun h => match heap !! h with
                     | Some o => map (matrix_world o) (bound_box o)
                     | None => []
                     end) hs.

(** [m] is the least (the greatest) of the finite values of [l]. *)
Definition is_least (l : list float) (m : Q) : Prop :=
  Fin m ∈ l ∧ ∀ q, Fin q ∈ l → m <= q.

Definition is_greatest (l : list float) (m : Q) : Prop :=
  Fin m ∈ l ∧ ∀ q, Fin q ∈ l → q <= m.

Definition all_finite (l : list float) : Prop :=
  Forall (λ x, is_finite x = true) l.

(** [(lo + hi) / 2 * s] on rationals. *)
Definition mid (lo hi s : Q) : Q := (lo + hi) / 2 * s.

(** The bindings with scaling factor [s] and the centre of the box from
    [(x0, y0, z0)] to [(x1, y1, z1)], scaled by [s]. *)
Definition bindings_fin (x0 y0 z0 x1 y1 z1 s : Q) : Bindings :=
  {| scaling_factor := Fin s;
     ecs_center := vec (mid x0 x1 s) (mid y0 y1 s) (mid z0 z1 s) |}.

Definition extent_fin (x0 y0 z0 x1 y1 z1 : Q) : Extent :=
  {| ecs_min_x := Fin x0; ecs_min_y := Fin y0; ecs_min_z := Fin z0;
     ecs_max_x := Fin x1; ecs_max_y := Fin y1; ecs_max_z := Fin z1 |}.



(** Some corner of some ECS object has the world-space coordinate [q]
    on the axis [p]. *)
Definition touches (sc : Scene) (p : Vector → float) (q : Q) : Prop :=
  ∃ h o v, h ∈ ecs_objects sc ∧ objects sc !! h = Some o
           ∧ v ∈ bound_box o ∧ p (matrix_world o v) = Fin q.

(** ** The centre of the vertices ([follow.py])

    [get_vertex_center] reads three things of a host object: its type,
    the local coordinates of the vertices of its mesh, and
    [matrix_world].  The field [object] of a [MeshObject] holds the
    translation and the scale that the cached [matrix_world] reflects at
    the call; the sum of the vertices is the exact one. *)

Record MeshObject : Type := mkMeshObject {
  object : Object;
  type : string;
  vertices : list Vector
}.

(** [u + v] on vectors. *)
Definition vector_add (u v : Vector) : Vector :=
  {| vx := float_add (vx u) (vx v);
     vy := float_add (vy u) (vy v);
     vz := float_add (vz u) (vz v) |}.

(** [v / n] on a vector: [None] stands for the ZeroDivisionError. *)
Definition vector_div (v : Vector) (n : float) : option Vector :=
  x ← py_div (vx v) n;
  y ← py_div (vy v) n;
  z ← py_div (vz v) n;
  Some {| vx := x; vy := y; vz := z |}.

(** The integer [n] as a float. *)
Definition float_of_nat (n : nat) : float := Fin (inject_Z (Z.of_nat n)).

(** [get_vertex_center(obj)].  The outer [option] is [None] when an
    exception is raised; the inner one is Python's [None]. *)
Definition get_vertex_center (obj : option MeshObject) : option (option Vector) :=
  match obj with
  | None => Some None
  | Some o =>
      if negb (String.eqb (type o) "MESH") then Some None
      else
        let num_vertices := length (vertices o) in
        if Nat.eqb num_vertices 0 then Some None
        else
          let vertex_sum :=
            fold_left (fun vertex_sum co =>
                         vector_add vertex_sum (matrix_world (object o) co))
                      (vertices o) zero_vector in
          center ← vector_div vertex_sum (float_of_nat num_vertices);
          Some (Some center)
  end.

(** ** Random starting positions ([falling.py], section 7) *)

(** [random.uniform(a, b)] is [a + (b - a) * random()]; [r] is the value
    drawn by [random()]. *)
Definition uniform (a b r : float) : float :=
  float_add a (float_mul (float_sub b a) r).

(** [obj.location = (random.uniform(-2, 2), random.uniform(-2, 2),
    random.uniform(1, 2))], for three successive draws. *)
Definition place_object (r1 r2 r3 : float) (o : Object) : Object :=
  {| name := name o; bound_box := bound_box o;
     location := {| vx := uniform (Fin (-2)) (Fin 2) r1;
                    vy := uniform (Fin (-2)) (Fin 2) r2;
                    vz := uniform (Fin 1) (Fin 2) r3 |};
     scale := scale o |}.

(** [for obj in all_objects: obj.location = ...].  The generator is the
    sequence [random] of the values it will draw; [n] counts the draws
    made so far. *)
Fixpoint randomize (random : nat → Q) (n : nat) (hs : list nat)
    (heap : list Object) : list Object :=
  match hs with
  | [] => heap
  | h :: hs =>
      randomize random (n + 3)%nat hs
        (alter (place_object (Fin (random n)) (Fin (random (n + 1)%nat))
                             (Fin (random (n + 2)%nat))) h heap)
  end.

(** Sections 6 and 7 of [falling.py], one after the other. *)
Definition normalize_then_randomize (random : nat → Q) (sc : Scene)
  : option (list Object) :=
  sc' ← normalized sc;
  Some (randomize random 0 (all_objects sc') (objects sc')).

(** The location is inside the region the random positions are drawn
    from. *)
Definition in_drop_zone (l : Vector) : Prop :=
  ∃ x y z, l = vec x y z ∧ -2 <= x <= 2 ∧ -2 <= y <= 2 ∧ 1 <= z <= 2.

(** A generator that returns 0, 1/4, 1/2, 3/4 in turn. *)
Definition quarters (n : nat) : Q := inject_Z (Z.of_nat (n mod 4)%nat) / 4.

(** ** Keyframes of the cells ([pulling.py], section 7) *)







(** ** Paths of the cells ([follow.py], section 7) *)

(** What the loop creates for one cell: the curve [CellPath_i] with the
    points of its spline (coordinates and weight), and the keyframes on
    the [offset_factor] of the constraint that makes the cell follow it. *)
Record CellPath : Type := mkCellPath {
  path_index : nat;
  points : list (Vector * float);
  offset_keys : list (nat * float)
}.

Definition frames : nat := 240.

(** The body of the loop for the cell [obj], the [i]-th of the list.
    [true_center - original_location] raises a TypeError when
    [get_vertex_center] has returned [None]. *)
Definition follow_cell (i : nat) (obj : MeshObject) : option CellPath :=
  r ← get_vertex_center (Some obj);
  match r with
  | None => None
  | Some true_center =>
      let original_location := location (object obj) in
      let final_location := vector_sub true_center original_location in
      Some {| path_index := i;
              points :=
                [ (zero_vector, Fin 1);
                  ({| vx := float_mul (vx true_center) (Fin 2);
                      vy := float_mul (vy true_center) (Fin 2);
                      vz := Fin 0 |}, Fin 1) ];
              offset_keys := [ (1%nat, Fin 0); (frames, Fin 1) ] |}
  end.

(** [for i, obj in enumerate(cell_objects): ...]; [None] when an
    exception stops the script. *)
Fixpoint follow_cells (i : nat) (cells : list MeshObject)
  : option (list CellPath) :=
  match cells with
  | [] => Some []
  | obj :: cells =>
      p ← follow_cell i obj;
      ps ← follow_cells (S i) cells;
      Some (p :: ps)
  end.

(** A cell object without vertices. *)
Definition mesh_empty : MeshObject :=
  {| object := imported "Cell_c.ply" (box_corners 0 0 0 0 0 0);
     type := "MESH"; vertices := [] |}.

(** ** The two import loops (sections 4 and 5 of the scripts) *)

(** [s.endswith(suffix)] *)
Definition endswith (s suffix : string) : bool :=
  let n := String.length s in
  let k := String.length suffix in
  (k <=? n)%nat && String.eqb (String.substring (n - k) k s) suffix.

Definition ecs_dir : string :=
  "/Users/ackermand/Documents/programming/blender/cello/meshes/ecs".
Definition cells_dir : string :=
  "/Users/ackermand/Documents/programming/blender/cello/meshes/cells".

(** [os.path.join(dir, filename)] for a directory without a trailing
    separator and a name from [os.listdir]. *)
Definition os_path_join (dir filename : string) : string :=
  String.append dir (String.append "/" filename).

(** [obj.name = n] *)
Definition set_name (n : string) (o : Object) : Object :=
  {| name := n; bound_box := bound_box o; location := location o;
     scale := scale o |}.

(** The entries of a directory listing that the loops import. *)
Definition ply_files (listing : list string) : list string :=
  List.filter (fun filename => endswith filename ".ply") listing.

(** [for filename in os.listdir(dir): body]; [None] when the body has
    raised for some entry, which ends the script. *)
Fixpoint for_listing (body : Scene → string → option Scene)
    (listing : list string) (sc : Scene) : option Scene :=
  match listing with
  | [] => Some sc
  | filename :: listing => sc' ← body sc filename; for_listing body listing sc'
  end.

(** The body of the first loop for one directory entry.  [ply_import]
    stands for the host: for a file path it gives the object that the
    import creates, as the rest of the body (material, normals,
    [transform_apply]) leaves it, or [None] when one of these operators
    raises.  [rename] stands for the host as well: [rename h n] is the
    name that the object [h] bears once the script has assigned it the
    name [n] (the host cuts a long name short and makes a taken one
    unique).  The object is new: it takes the next free handle of the
    heap. *)
Definition load_ecs (ply_import : string → option Object)
    (rename : nat → string → string) (sc : Scene) (filename : string)
  : option Scene :=
  if endswith filename ".ply" then
    mesh ← ply_import (os_path_join ecs_dir filename);
    let obj := length (objects sc) in
    Some {| objects :=
              objects sc
              ++ [set_name (rename obj (String.append "ECS_" filename)) mesh];
            all_objects := all_objects sc ++ [obj];
            ecs_objects := ecs_objects sc ++ [obj];
            cell_objects := cell_objects sc |}
  else Some sc.

(** The body of the second loop. *)
Definition load_cell (ply_import : string → option Object)
    (rename : nat → string → string) (sc : Scene) (filename : string)
  : option Scene :=
  if endswith filename ".ply" then
    mesh ← ply_import (os_path_join cells_dir filename);
    let obj := length (objects sc) in
    Some {| objects :=
              objects sc
              ++ [set_name (rename obj (String.append "Cell_" filename)) mesh];
            all_objects := all_objects sc ++ [obj];
            ecs_objects := ecs_objects sc;
            cell_objects := cell_objects sc ++ [obj] |}
  else Some sc.

(** Sections 3 to 5: the three lists start empty and the two loops run
    over the entries of the two directories.  [heap0] holds the objects
    that exist before (camera, lights, collision plane). *)
Definition load_meshes (ply_import : string → option Object)
    (rename : nat → string → string)
    (ecs_listing cells_listing : list string) (heap0 : list Object)
  : option Scene :=
  sc ← for_listing (load_ecs ply_import rename) ecs_listing
         {| objects := heap0; all_objects := []; ecs_objects := [];
            cell_objects := [] |};
  for_listing (load_cell ply_import rename) cells_listing sc.

(** The objects that a loop adds for the files [files], the first of
    them at the handle [h]; [None] when one of the imports raises. *)
Fixpoint import_files (ply_import : string → option Object)
    (rename : nat → string → string) (dir prefix : string) (h : nat)
    (files : list string) : option (list Object) :=
  match files with
  | [] => Some []
  | filename :: files =>
      mesh ← ply_import (os_path_join dir filename);
      rest ← import_files ply_import rename dir prefix (S h) files;
      Some (set_name (rename h (String.append prefix filename)) mesh :: rest)
  end.

(** An importer for the examples: every file holds the 2 x 4 x 8 box,
    and no import raises. *)
Definition import_box (filepath : string) : option Object :=
  Some (imported filepath (box_corners 0 0 0 2 4 8)).

(** A host that gives every object the name the script asks for. *)
Definition keep_name (h : nat) (n : string) : string := n.

(** ** Single precision

    The host keeps [obj.scale] and [obj.location] as single-precision
    numbers, while Python computes in double precision.  What the host
    stores is the number the script has computed when that number is a
    single-precision one; otherwise the host rounds it: a product too
    small becomes zero, a number too large is replaced by the largest
    finite one.  The properties that say which number an object ends
    with are stated for numbers that single precision holds. *)

(** The largest finite single-precision number, (2^24 - 1) * 2^104. *)
Definition FLT_MAX : Q := inject_Z ((2 ^ 24 - 1) * 2 ^ 104).

(** The least positive single-precision number, 2^-149. *)
Definition FLT_TRUE_MIN : Q := 1 # (2 ^ 149).

(** [q] is a single-precision number: [q = m * 2^e] for two integers
    with [|m| < 2^24] and [-149 <= e <= 104].  With [j = e + 149] this
    says that [q * 2^149] is an integer that some [2^j], [j] from 0 to
    253, divides with a quotient below 2^24 in magnitude. *)
Definition binary32 (q : Q) : bool :=
  let r := Qred (q * inject_Z (2 ^ 149)) in
  let n := Z.abs (Qnum r) in
  Pos.eqb (Qden r) 1
  && existsb (λ j : nat,
                let p := (2 ^ Z.of_nat j)%Z in
                (n mod p =? 0)%Z && (n / p <? 2 ^ 24)%Z)
             (seq 0 254).







(** The collision plane of [falling.py]:
    [primitive_plane_add(size=10, location=(0, 0, 0))] makes a square of
    side 10 at height 0, with no scale. *)
Definition plane : Object :=
  {| name := "CollisionPlane"; bound_box := box_corners (-5) (-5) 0 5 5 0;
     location := zero_vector; scale := vec 1 1 1 |}.

(** The scene that the loops build beside the plane from an ECS
    directory that holds "a.ply" and "notes.txt" and a cells directory
    that holds "b.ply". *)
Definition scene_loaded : Scene :=
  {| objects := [ plane;
                  imported "ECS_a.ply" (box_corners 0 0 0 2 4 8);
                  imported "Cell_b.ply" (box_corners 0 0 0 2 4 8) ];
     all_objects := [1%nat; 2%nat]; ecs_objects := [1%nat];
     cell_objects := [2%nat] |}.

(** One ECS object, a cube of side 2^-130 with a corner at the world
    origin. *)
Definition scene_tiny_cube : Scene :=
  {| objects := [ imported "ECS_a.ply"
                    (box_corners 0 0 0 (1 # 2 ^ 130) (1 # 2 ^ 130) (1 # 2 ^ 130)) ];
     all_objects := [0%nat]; ecs_objects := [0%nat]; cell_objects := [] |}.

(** Modelled from the spec: the host keeps [obj.scale] within the range
    of single precision.  A number above [FLT_MAX] is stored as
    [FLT_MAX], a number below [- FLT_MAX] as [- FLT_MAX]; the rounding of
    the numbers in between is not modelled. *)
Definition store_single (a : float) : float :=
  match a with
  | NaN => NaN
  | NInf => Fin (- FLT_MAX)
  | Fin q => if Qltb FLT_MAX q then Fin FLT_MAX
             else if Qltb q (- FLT_MAX) then Fin (- FLT_MAX)
             else Fin q
  | PInf => Fin FLT_MAX
  end.

Definition store_scale (o : Object) : Object :=
  {| name := name o; bound_box := bound_box o; location := location o;
     scale := {| vx := store_single (vx (scale o));
                 vy := store_single (vy (scale o));
                 vz := store_single (vz (scale o)) |} |}.

(** The scene as the host holds it once the scales have been stored. *)
Definition stored (sc : Scene) : Scene :=
  {| objects := map store_scale (objects sc);
     all_objects := all_objects sc;
     ecs_objects := ecs_objects sc;
     cell_objects := cell_objects sc |}.

(** * Properties *)

(** ** Comparisons and numeric equality *)

Lemma Qltb_lt (a b : Q) : Qltb a b = true ↔ a < b.
Proof.
  unfold Qltb. rewrite negb_true_iff, <- not_true_iff_false, Qle_bool_iff.
  split; intros H; lra.
Qed.

Lemma Qltb_ge (a b : Q) : Qltb a b = false ↔ b <= a.
Proof.
  unfold Qltb. rewrite negb_false_iff, Qle_bool_iff. reflexivity.
Qed.

Lemma float_eqv_fin (a b : Q) : float_eqv (Fin a) (Fin b) ↔ a == b.
Proof. unfold float_eqv; simpl. apply Qeq_bool_iff. Qed.

Lemma float_eqv_refl (a : float) : float_eqv a a.
Proof. destruct a; try reflexivity. apply float_eqv_fin; reflexivity. Qed.

Lemma float_eqv_sym (a b : float) : float_eqv a b → float_eqv b a.
Proof.
  destruct a, b; try (intros H; exact H).
  rewrite !float_eqv_fin. intros H; symmetry; exact H.
Qed.

Lemma float_eqv_trans (a b c : float) :
  float_eqv a b → float_eqv b c → float_eqv a c.
Proof.
  destruct a, b, c; try (intros H1 H2; first [ exact H1 | exact H2 | discriminate ]).
  rewrite !float_eqv_fin. intros H1 H2. rewrite H1. exact H2.
Qed.

Lemma vector_eqv_split (u v : Vector) :
  vector_eqv u v ↔
  float_eqv (vx u) (vx v) ∧ float_eqv (vy u) (vy v) ∧ float_eqv (vz u) (vz v).
Proof.
  unfold vector_eqv, vector_eqb, float_eqv.
  rewrite !andb_true_iff. tauto.
Qed.

Lemma vector_eqv_refl (v : Vector) : vector_eqv v v.
Proof. apply vector_eqv_split; auto using float_eqv_refl. Qed.

Lemma is_finite_fin (a : float) : is_finite a = true ↔ ∃ q, a = Fin q.
Proof.
  destruct a; simpl; split; try discriminate; eauto; intros [q Hq]; discriminate.
Qed.

Lemma vector_finite_vec (v : Vector) :
  vector_finite v = true ↔ ∃ x y z, v = vec x y z.
Proof.
  unfold vector_finite. rewrite !andb_true_iff, !is_finite_fin. split.
  - intros [[[x Hx] [y Hy]] [z Hz]]. exists x, y, z.
    destruct v; simpl in *; subst; reflexivity.
  - intros (x & y & z & ->). simpl. repeat split; eexists; reflexivity.
Qed.

(** ** Single-precision numbers *)

Lemma Qred_inject_Z (z : Z) : Qred (inject_Z z) = inject_Z z.
Proof.
  unfold Qred, inject_Z.
  pose proof (Z.ggcd_gcd z 1) as Hg.
  pose proof (Z.ggcd_correct_divisors z 1) as Hd.
  destruct (Z.ggcd z 1) as [g [aa bb]]. simpl in Hg.
  rewrite Z.gcd_1_r in Hg. subst g. destruct Hd as [Ha Hb].
  rewrite Z.mul_1_l in Ha, Hb. subst aa bb. reflexivity.
Qed.

Lemma Qden_one (r : Q) : Qden r = 1%positive → r = inject_Z (Qnum r).
Proof. destruct r as [n d]. simpl. intros ->. reflexivity. Qed.

(** [binary32] holds exactly of the numbers [m * 2^j / 2^149] with
    [|m| < 2^24] and [j < 254], that is [m * 2^e] with
    [-149 <= e <= 104]. *)
Lemma binary32_spec (q : Q) :
  binary32 q = true ↔
  ∃ (m : Z) (j : nat),
    (Z.abs m < 2 ^ 24)%Z ∧ (j < 254)%nat
    ∧ q == inject_Z (m * 2 ^ Z.of_nat j) / inject_Z (2 ^ 149).
Proof.
  unfold binary32. cbv zeta.
  rewrite andb_true_iff, Pos.eqb_eq, existsb_exists. split.
  - intros (Hden & j & Hj & Hdiv).
    apply in_seq in Hj. apply andb_true_iff in Hdiv as (Hmod & Hlt).
    apply Z.eqb_eq in Hmod. apply Z.ltb_lt in Hlt.
    set (r := Qred (q * inject_Z (2 ^ 149))) in *.
    set (p := (2 ^ Z.of_nat j)%Z) in *.
    assert (0 < p)%Z as Hp by (apply Z.pow_pos_nonneg; lia).
    exists (Z.sgn (Qnum r) * (Z.abs (Qnum r) / p))%Z, j.
    split; [|split; [lia|]].
    + assert (0 <= Z.abs (Qnum r) / p)%Z by (apply Z.div_pos; lia).
      destruct (Z.sgn_spec (Qnum r)) as [[_ ->]|[[_ ->]|[_ ->]]]; lia.
    + assert (Qnum r = Z.sgn (Qnum r) * (Z.abs (Qnum r) / p) * p)%Z as Hnum.
      { rewrite <- Z.mul_assoc, (Z.mul_comm (_ / p) p).
        rewrite <- (Z_div_exact_full_2 (Z.abs (Qnum r)) p) by lia.
        destruct (Z.sgn_spec (Qnum r)) as [[? ->]|[[? ->]|[? ->]]]; lia. }
      assert (q * inject_Z (2 ^ 149) == inject_Z (Qnum r)) as Hq.
      { rewrite <- (Qden_one r Hden). subst r. symmetry. apply Qred_correct. }
      fold p. rewrite <- Hnum.
      assert (~ inject_Z (2 ^ 149) == 0) as Hnz by (vm_compute; discriminate).
      rewrite <- Hq. field. exact Hnz.
  - intros (m & j & Hm & Hj & Hq).
    assert (~ inject_Z (2 ^ 149) == 0) as Hnz by (vm_compute; discriminate).
    assert (q * inject_Z (2 ^ 149) == inject_Z (m * 2 ^ Z.of_nat j)) as Hq'.
    { rewrite Hq. field. exact Hnz. }
    rewrite (Qred_complete _ _ Hq'), Qred_inject_Z.
    split; [reflexivity|].
    exists j. split; [apply in_seq; lia|].
    cbn [Qnum inject_Z].
    assert (0 < 2 ^ Z.of_nat j)%Z as Hp by (apply Z.pow_pos_nonneg; lia).
    rewrite Z.abs_mul, (Z.abs_eq (2 ^ Z.of_nat j)) by lia.
    rewrite Z.mod_mul, Z.div_mul by lia.
    rewrite Z.eqb_refl. apply Z.ltb_lt in Hm. rewrite Hm. reflexivity.
Qed.

(** A single-precision number is at most [FLT_MAX] in magnitude, and at
    least [FLT_TRUE_MIN] unless it is zero. *)
Lemma binary32_range (q : Q) :
  binary32 q = true →
  Qabs q <= FLT_MAX ∧ (q == 0 ∨ FLT_TRUE_MIN <= Qabs q).
Proof.
  intros H. apply binary32_spec in H as (m & j & Hm & Hj & Hq).
  assert (0 < 2 ^ Z.of_nat j)%Z as Hp by (apply Z.pow_pos_nonneg; lia).
  assert (2 ^ Z.of_nat j <= 2 ^ 253)%Z as Hle
    by (apply Z.pow_le_mono_r; lia).
  assert (Qabs q == inject_Z (Z.abs m * 2 ^ Z.of_nat j) * (1 # 2 ^ 149)) as Habs.
  { rewrite Hq. unfold Qdiv. rewrite Qabs_Qmult.
    change (Qabs (/ inject_Z (2 ^ 149))) with (1 # 2 ^ 149).
    change (Qabs (inject_Z (m * 2 ^ Z.of_nat j)))
      with (inject_Z (Z.abs (m * 2 ^ Z.of_nat j))).
    rewrite Z.abs_mul, (Z.abs_eq (2 ^ Z.of_nat j)) by lia. reflexivity. }
  split.
  - rewrite Habs. unfold FLT_MAX, Qle. cbn [Qnum Qden inject_Z Qmult].
    rewrite !Z.mul_1_r. rewrite <- Z.mul_assoc.
    change (2 ^ 104 * Z.pos (1 * 2 ^ 149)%positive)%Z with (2 ^ 253)%Z.
    apply Z.mul_le_mono_nonneg; lia.
  - destruct (Z.eq_dec m 0%Z) as [->|Hnz].
    + left. rewrite Hq. rewrite Z.mul_0_l. reflexivity.
    + right. rewrite Habs. unfold FLT_TRUE_MIN, Qle.
      cbn [Qnum Qden inject_Z Qmult]. rewrite !Z.mul_1_l, !Z.mul_1_r.
      change (Z.pos (1 * 2 ^ 149)%positive) with (1 * Z.pos (2 ^ 149))%Z.
      apply Z.mul_le_mono_nonneg_r; [lia|].
      assert (1 <= Z.abs m)%Z by lia. nia.
Qed.

(** ** The mutating loops on the heap *)

Lemma nodupb_NoDup (l : list nat) : nodupb l = true ↔ NoDup l.
Proof.
  induction l as [|x l IH]; simpl.
  - split; [intros _; constructor | reflexivity].
  - rewrite andb_true_iff, negb_true_iff, IH, NoDup_cons.
    assert (existsb (Nat.eqb x) l = false ↔ x ∉ l) as ->; [|reflexivity].
    rewrite <- not_true_iff_false, existsb_exists.
    split; intros H Hin; apply H.
    + exists x. split; [apply list_elem_of_In; exact Hin | apply Nat.eqb_refl].
    + destruct Hin as (y & Hy & Heq). apply Nat.eqb_eq in Heq; subst y.
      apply list_elem_of_In; exact Hy.
Qed.

Lemma existsb_eqb_elem (h : nat) (l : list nat) :
  existsb (Nat.eqb h) l = true ↔ h ∈ l.
Proof.
  rewrite existsb_exists. split.
  - intros (y & Hy & Heq). apply Nat.eqb_eq in Heq; subst y.
    apply list_elem_of_In; exact Hy.
  - intros Hin. exists h. split; [apply list_elem_of_In; exact Hin | apply Nat.eqb_refl].
Qed.

Lemma for_each_length (f : Object → Object) (hs : list nat) (heap : list Object) :
  length (for_each f hs heap) = length heap.
Proof.
  revert heap; induction hs as [|h hs IH]; intros heap; simpl; [reflexivity|].
  unfold for_each in *; simpl. rewrite IH. apply length_alter.
Qed.

Lemma for_each_notin (f : Object → Object) (hs : list nat) (heap : list Object) (h : nat) :
  h ∉ hs → for_each f hs heap !! h = heap !! h.
Proof.
  revert heap; induction hs as [|h' hs IH]; intros heap Hh; [reflexivity|].
  apply not_elem_of_cons in Hh as [Hne Hh].
  unfold for_each in *; simpl. rewrite IH by exact Hh.
  apply list_lookup_alter_ne. congruence.
Qed.

Lemma for_each_in (f : Object → Object) (hs : list nat) (heap : list Object) (h : nat) :
  NoDup hs → h ∈ hs → for_each f hs heap !! h = f <$> heap !! h.
Proof.
  revert heap; induction hs as [|h' hs IH]; intros heap Hnd Hh.
  - apply elem_of_nil in Hh as [].
  - apply NoDup_cons in Hnd as [Hnotin Hnd].
    change (for_each f (h' :: hs) heap) with (for_each f hs (alter f h' heap)).
    apply elem_of_cons in Hh as [-> | Hh].
    + rewrite for_each_notin by exact Hnotin. apply list_lookup_alter_eq.
    + rewrite IH by assumption.
      rewrite list_lookup_alter_ne; [reflexivity|].
      intros ->. contradiction.
Qed.

(** Whatever [f] leaves alone, the loop leaves alone, in every object. *)
Lemma for_each_preserves {A : Type} (g : Object → A) (f : Object → Object)
    (hs : list nat) (heap : list Object) (h : nat) :
  (∀ o, g (f o) = g o) →
  g <$> for_each f hs heap !! h = g <$> heap !! h.
Proof.
  intros Hg. revert heap; induction hs as [|h' hs IH]; intros heap; [reflexivity|].
  change (for_each f (h' :: hs) heap) with (for_each f hs (alter f h' heap)).
  rewrite IH. destruct (decide (h' = h)) as [->|Hne].
  - rewrite list_lookup_alter_eq. destruct (heap !! h); simpl; [rewrite Hg|]; reflexivity.
  - rewrite list_lookup_alter_ne by exact Hne. reflexivity.
Qed.

(** A property that [f] keeps is kept by the loop. *)
Lemma for_each_invariant (P : Object → Prop) (f : Object → Object)
    (hs : list nat) (heap : list Object) :
  (∀ o, P o → P (f o)) → Forall P heap → Forall P (for_each f hs heap).
Proof.
  intros Hf. revert heap; induction hs as [|h' hs IH]; intros heap HP; [exact HP|].
  change (for_each f (h' :: hs) heap) with (for_each f hs (alter f h' heap)).
  apply IH. apply Forall_alter; auto.
Qed.

(** ** The shape of a run of the block *)

Lemma normalize_unfold (sc : Scene) :
  normalize sc =
  match ecs_objects sc with
  | [] => Some (sc, None)
  | _ :: _ => b ← bindings_of (ecs_extent sc); Some (apply_bindings b sc, Some b)
  end.
Proof.
  unfold normalize, bindings_of, apply_bindings.
  destruct (ecs_objects sc); [reflexivity|].
  destruct (scaling_factor_of _); simpl; [|reflexivity].
  repeat (destruct (center_of _ _ _); simpl; [|reflexivity]).
  reflexivity.
Qed.

Lemma py_div_two (a : float) : ∃ r, py_div a (Fin 2) = Some r.
Proof. simpl. eauto. Qed.

Lemma center_of_total (lo hi k : float) : ∃ c, center_of lo hi k = Some c.
Proof.
  unfold center_of. destruct (py_div_two (float_add lo hi)) as [r ->].
  simpl. eauto.
Qed.

(** The guard [min_dimension > 0] keeps the division away from zero. *)
Lemma scaling_factor_of_total (md : float) : ∃ k, scaling_factor_of md = Some k.
Proof.
  unfold scaling_factor_of.
  destruct (float_ltb (Fin 0) md) eqn:Hlt; [|eauto].
  destruct md as [| |y|]; simpl in *; try discriminate; eauto.
  apply Qltb_lt in Hlt.
  destruct (Qeq_bool y 0) eqn:Hy; [|eauto].
  apply Qeq_bool_iff in Hy. lra.
Qed.

Lemma bindings_of_total (e : Extent) : ∃ b, bindings_of e = Some b.
Proof.
  unfold bindings_of.
  destruct (scaling_factor_of_total (min_dimension e)) as [k ->].
  cbn [mbind option_bind].
  destruct (center_of_total (ecs_min_x e) (ecs_max_x e) k) as [cx ->].
  destruct (center_of_total (ecs_min_y e) (ecs_max_y e) k) as [cy ->].
  destruct (center_of_total (ecs_min_z e) (ecs_max_z e) k) as [cz ->].
  cbn [mbind option_bind]. eauto.
Qed.

(** The block never raises. *)
Lemma normalize_total (sc : Scene) : ∃ sc' b, normalize sc = Some (sc', b).
Proof.
  rewrite normalize_unfold. destruct (ecs_objects sc); [eauto|].
  destruct (bindings_of_total (ecs_extent sc)) as [b ->]. simpl. eauto.
Qed.


Lemma normalize_nonempty (sc : Scene) :
  ecs_objects sc ≠ [] →
  ∃ b, bindings_of (ecs_extent sc) = Some b
       ∧ normalize sc = Some (apply_bindings b sc, Some b).
Proof.
  intros Hne. rewrite normalize_unfold.
  destruct (ecs_objects sc); [contradiction|].
  destruct (bindings_of_total (ecs_extent sc)) as [b Hb].
  exists b. rewrite Hb. auto.
Qed.

(** What the two loops do to one object of [all_objects]. *)
Lemma apply_bindings_in (b : Bindings) (sc : Scene) (h : nat) :
  NoDup (all_objects sc) → h ∈ all_objects sc →
  objects (apply_bindings b sc) !! h
  = (λ o, shift_object (ecs_center b) (rescale_object (scaling_factor b) o))
      <$> objects sc !! h.
Proof.
  intros Hnd Hin. simpl. unfold shift_all, rescale_all.
  rewrite !for_each_in by assumption.
  destruct (objects sc !! h); reflexivity.
Qed.

Lemma apply_bindings_notin (b : Bindings) (sc : Scene) (h : nat) :
  h ∉ all_objects sc → objects (apply_bindings b sc) !! h = objects sc !! h.
Proof.
  intros Hin. simpl. unfold shift_all, rescale_all.
  rewrite !for_each_notin by assumption. reflexivity.
Qed.


(** [if ecs_objects:] on an empty list skips the block. *)
Lemma normalize_skipped (sc : Scene) :
  ecs_objects sc = [] → normalize sc = Some (sc, None).
Proof.
  intros Hempty. unfold normalize. rewrite Hempty. reflexivity.
Qed.

(** ** Empty reference group *)

(** C5, as stated, fails: with no ECS object the block is skipped, so it
    binds no scaling factor and no centre at all, in particular not the
    values 1.0 and zero. *)
Lemma normalize_no_ecs_binds_nothing :
  ecs_objects scene_no_ecs = []
  ∧ ∀ sc' b, normalize scene_no_ecs ≠ Some (sc', Some b).
Proof.
  split; [reflexivity|]. intros sc' b. vm_compute. discriminate.
Qed.

(** C5 (amended): with an empty reference group the block is skipped: it
    binds no scaling factor and no centre, and the scene it leaves is the
    scene it found, so no object's scale or translation has changed. *)
Theorem normalize_empty_reference_group (sc : Scene) :
  ecs_objects sc = [] → normalize sc = Some (sc, None).
Proof. exact (normalize_skipped sc). Qed.

Lemma normalize_empty_reference_group_witness :
  ecs_objects scene_no_ecs = []
  ∧ normalize scene_no_ecs = Some (scene_no_ecs, None).
Proof.
  split; [reflexivity|].
  apply (normalize_empty_reference_group scene_no_ecs). reflexivity.
Defined.

(** ** Subject objects *)



(** ** Frame *)

(** C8: the block always ends, and it leaves the three lists, the number
    of objects, and the name and the bounding-box corners of every object
    as it found them; an object outside [all_objects] is not touched. *)
Theorem normalize_frame (sc : Scene) :
  ∃ sc' b, normalize sc = Some (sc', b)
    ∧ all_objects sc' = all_objects sc
    ∧ ecs_objects sc' = ecs_objects sc
    ∧ cell_objects sc' = cell_objects sc
    ∧ length (objects sc') = length (objects sc)
    ∧ ∀ h, bound_box <$> objects sc' !! h = bound_box <$> objects sc !! h
           ∧ name <$> objects sc' !! h = name <$> objects sc !! h
           ∧ (h ∉ all_objects sc → objects sc' !! h = objects sc !! h).
Proof.
  rewrite normalize_unfold. destruct (ecs_objects sc) eqn:Hecs.
  - exists sc, None. repeat split; auto.
  - destruct (bindings_of_total (ecs_extent sc)) as [b ->].
    cbn [mbind option_bind].
    exists (apply_bindings b sc), (Some b). repeat split; auto.
    + simpl. unfold shift_all, rescale_all. rewrite !for_each_length. reflexivity.
    + simpl. unfold shift_all, rescale_all.
      rewrite (for_each_preserves bound_box) by reflexivity.
      apply (for_each_preserves bound_box). reflexivity.
    + simpl. unfold shift_all, rescale_all.
      rewrite (for_each_preserves name) by reflexivity.
      apply (for_each_preserves name). reflexivity.
    + apply apply_bindings_notin.
Qed.

(** ** The centring loop *)



(** ** The bounding box as a fold over the world-space vertices *)

Lemma extent_object_flat (o : Object) (e : Extent) :
  extent_object e o = fold_left extent_step (map (matrix_world o) (bound_box o)) e.
Proof.
  unfold extent_object. revert e.
  induction (bound_box o) as [|v vs IH]; intros e; simpl; [reflexivity | apply IH].
Qed.

Lemma extent_objects_flat (heap : list Object) (hs : list nat) (e : Extent) :
  extent_objects heap hs e = fold_left extent_step (world_vertices heap hs) e.
Proof.
  revert e; induction hs as [|h hs IH]; intros e; [reflexivity|].
  unfold extent_objects, world_vertices in *; simpl.
  rewrite fold_left_app, IH. f_equal.
  destruct (heap !! h); [apply extent_object_flat | reflexivity].
Qed.

(** Each of the six variables is a fold of its own. *)
Lemma extent_fold_components (ws : list Vector) (e : Extent) :
  fold_left extent_step ws e =
  {| ecs_min_x := fold_left py_min (map vx ws) (ecs_min_x e);
     ecs_min_y := fold_left py_min (map vy ws) (ecs_min_y e);
     ecs_min_z := fold_left py_min (map vz ws) (ecs_min_z e);
     ecs_max_x := fold_left py_max (map vx ws) (ecs_max_x e);
     ecs_max_y := fold_left py_max (map vy ws) (ecs_max_y e);
     ecs_max_z := fold_left py_max (map vz ws) (ecs_max_z e) |}.
Proof.
  revert e; induction ws as [|w ws IH]; intros e; simpl.
  - destruct e; reflexivity.
  - rewrite IH. reflexivity.
Qed.

(** ** Folding [min] and [max] over finite values *)

Lemma py_min_fin (a b : Q) :
  ∃ m, py_min (Fin a) (Fin b) = Fin m ∧ m <= a ∧ m <= b ∧ (m = a ∨ m = b).
Proof.
  unfold py_min; simpl. destruct (Qltb b a) eqn:H.
  - apply Qltb_lt in H. exists b. repeat split; auto; lra.
  - apply Qltb_ge in H. exists a. repeat split; auto; lra.
Qed.

Lemma py_max_fin (a b : Q) :
  ∃ m, py_max (Fin a) (Fin b) = Fin m ∧ a <= m ∧ b <= m ∧ (m = a ∨ m = b).
Proof.
  unfold py_max; simpl. destruct (Qltb a b) eqn:H.
  - apply Qltb_lt in H. exists b. repeat split; auto; lra.
  - apply Qltb_ge in H. exists a. repeat split; auto; lra.
Qed.

Lemma fold_min_from (l : list float) (a : Q) :
  all_finite l →
  ∃ m, fold_left py_min l (Fin a) = Fin m ∧ is_least (Fin a :: l) m.
Proof.
  revert a; induction l as [|x l IH]; intros a Hfin.
  - exists a. split; [reflexivity|]. split; [apply list_elem_of_here|].
    intros q Hq. apply elem_of_cons in Hq as [[= ->]|Hq]; [lra|].
    apply elem_of_nil in Hq as [].
  - apply Forall_cons in Hfin as [Hx Hfin].
    apply is_finite_fin in Hx as [b ->]. simpl.
    destruct (py_min_fin a b) as (m0 & -> & Ha & Hb & Hm0).
    destruct (IH m0 Hfin) as (m & -> & Hin & Hle).
    exists m. split; [reflexivity|]. split.
    + apply elem_of_cons in Hin as [[= ->]|Hin].
      * destruct Hm0 as [->| ->];
          [apply list_elem_of_here | apply list_elem_of_further, list_elem_of_here].
      * do 2 apply list_elem_of_further. exact Hin.
    + assert (m <= m0) by (apply Hle, list_elem_of_here).
      intros q Hq. apply elem_of_cons in Hq as [[= ->]|Hq]; [lra|].
      apply elem_of_cons in Hq as [[= ->]|Hq]; [lra|].
      apply Hle, list_elem_of_further, Hq.
Qed.

Lemma fold_max_from (l : list float) (a : Q) :
  all_finite l →
  ∃ m, fold_left py_max l (Fin a) = Fin m ∧ is_greatest (Fin a :: l) m.
Proof.
  revert a; induction l as [|x l IH]; intros a Hfin.
  - exists a. split; [reflexivity|]. split; [apply list_elem_of_here|].
    intros q Hq. apply elem_of_cons in Hq as [[= ->]|Hq]; [lra|].
    apply elem_of_nil in Hq as [].
  - apply Forall_cons in Hfin as [Hx Hfin].
    apply is_finite_fin in Hx as [b ->]. simpl.
    destruct (py_max_fin a b) as (m0 & -> & Ha & Hb & Hm0).
    destruct (IH m0 Hfin) as (m & -> & Hin & Hle).
    exists m. split; [reflexivity|]. split.
    + apply elem_of_cons in Hin as [[= ->]|Hin].
      * destruct Hm0 as [->| ->];
          [apply list_elem_of_here | apply list_elem_of_further, list_elem_of_here].
      * do 2 apply list_elem_of_further. exact Hin.
    + assert (m0 <= m) by (apply Hle, list_elem_of_here).
      intros q Hq. apply elem_of_cons in Hq as [[= ->]|Hq]; [lra|].
      apply elem_of_cons in Hq as [[= ->]|Hq]; [lra|].
      apply Hle, list_elem_of_further, Hq.
Qed.

(** From [float('inf')] the first vertex replaces the initial value. *)
Lemma fold_min_init (l : list float) :
  all_finite l → l ≠ [] →
  ∃ m, fold_left py_min l PInf = Fin m ∧ is_least l m.
Proof.
  intros Hfin Hne. destruct l as [|x l]; [contradiction|].
  pose proof Hfin as Hfin'.
  apply Forall_cons in Hfin' as [Hx Hl]. apply is_finite_fin in Hx as [a ->].
  simpl. change (py_min PInf (Fin a)) with (Fin a).
  apply fold_min_from, Hl.
Qed.

Lemma fold_max_init (l : list float) :
  all_finite l → l ≠ [] →
  ∃ m, fold_left py_max l NInf = Fin m ∧ is_greatest l m.
Proof.
  intros Hfin Hne. destruct l as [|x l]; [contradiction|].
  pose proof Hfin as Hfin'.
  apply Forall_cons in Hfin' as [Hx Hl]. apply is_finite_fin in Hx as [a ->].
  simpl. change (py_max NInf (Fin a)) with (Fin a).
  apply fold_max_from, Hl.
Qed.

(** ** Well-formed scenes, as propositions *)

Lemma object_ok_spec (o : Object) :
  object_ok o = true ↔
  bound_box o ≠ []
  ∧ Forall (λ v, vector_finite v = true) (bound_box o)
  ∧ vector_finite (location o) = true ∧ vector_finite (scale o) = true.
Proof.
  unfold object_ok. rewrite !andb_true_iff.
  destruct (bound_box o) as [|v vs] eqn:Hbb.
  - split; [intros [[[=] _] _] | intros [H _]; contradiction].
  - rewrite forallb_forall, Forall_forall.
    setoid_rewrite list_elem_of_In.
    split; [intros [[H1 H2] H3] | intros (_ & H1 & H2 & H3)]; repeat split; auto.
Qed.

Lemma scene_ok_spec (sc : Scene) :
  scene_ok sc = true ↔
  Forall (λ o, object_ok o = true) (objects sc)
  ∧ (∀ h, h ∈ all_objects sc → is_Some (objects sc !! h))
  ∧ NoDup (all_objects sc)
  ∧ (∀ h, h ∈ ecs_objects sc → h ∈ all_objects sc).
Proof.
  unfold scene_ok. rewrite !andb_true_iff, nodupb_NoDup.
  rewrite !forallb_forall, Forall_forall.
  setoid_rewrite existsb_eqb_elem. setoid_rewrite list_elem_of_In.
  assert (∀ h, handle_ok (objects sc) h = true ↔ is_Some (objects sc !! h)) as Hh.
  { intros h. unfold handle_ok. destruct (objects sc !! h); split;
      try discriminate; eauto. intros [x [=]]. }
  setoid_rewrite Hh. tauto.
Qed.

(** ** Finite world-space vertices *)

Lemma matrix_world_vec (o : Object) (lx ly lz sx sy sz x y z : Q) :
  location o = vec lx ly lz → scale o = vec sx sy sz →
  matrix_world o (vec x y z)
  = vec (lx + sx * x) (ly + sy * y) (lz + sz * z).
Proof. intros Hl Hs. unfold matrix_world. rewrite Hl, Hs. reflexivity. Qed.

Lemma matrix_world_finite (o : Object) (v : Vector) :
  vector_finite (location o) = true → vector_finite (scale o) = true →
  vector_finite v = true → vector_finite (matrix_world o v) = true.
Proof.
  intros Hl Hs Hv.
  apply vector_finite_vec in Hl as (lx & ly & lz & Hl).
  apply vector_finite_vec in Hs as (sx & sy & sz & Hs).
  apply vector_finite_vec in Hv as (x & y & z & ->).
  rewrite (matrix_world_vec o _ _ _ _ _ _ x y z Hl Hs). reflexivity.
Qed.

Lemma world_vertices_finite (heap : list Object) (hs : list nat) :
  Forall (λ o, object_ok o = true) heap →
  Forall (λ w, vector_finite w = true) (world_vertices heap hs).
Proof.
  intros Hheap. induction hs as [|h hs IH]; [constructor|].
  unfold world_vertices in *; simpl. apply Forall_app. split; [|exact IH].
  destruct (heap !! h) as [o|] eqn:Ho; [|constructor].
  assert (object_ok o = true) as Hok.
  { rewrite Forall_forall in Hheap. apply Hheap.
    apply list_elem_of_lookup. eauto. }
  apply object_ok_spec in Hok as (_ & Hbb & Hl & Hs).
  induction Hbb as [|v vs Hv _ IHv]; simpl; constructor; auto.
  apply matrix_world_finite; assumption.
Qed.

Lemma world_vertices_nonempty (heap : list Object) (hs : list nat) :
  Forall (λ o, object_ok o = true) heap →
  (∀ h, h ∈ hs → is_Some (heap !! h)) →
  hs ≠ [] → world_vertices heap hs ≠ [].
Proof.
  intros Hheap Hvalid Hne. destruct hs as [|h hs]; [contradiction|].
  destruct (Hvalid h) as [o Ho]; [apply list_elem_of_here|].
  unfold world_vertices; simpl. rewrite Ho.
  assert (object_ok o = true) as Hok.
  { rewrite Forall_forall in Hheap. apply Hheap.
    apply list_elem_of_lookup. eauto. }
  apply object_ok_spec in Hok as (Hbb & _).
  destruct (bound_box o); [contradiction | discriminate].
Qed.

(** ** One axis of the bounding box *)

Lemma fold_axis (l : list float) :
  all_finite l → l ≠ [] →
  ∃ lo hi, fold_left py_min l PInf = Fin lo ∧ fold_left py_max l NInf = Fin hi
           ∧ is_least l lo ∧ is_greatest l hi.
Proof.
  intros Hfin Hne.
  destruct (fold_min_init l Hfin Hne) as (lo & Hlo & Hleast).
  destruct (fold_max_init l Hfin Hne) as (hi & Hhi & Hgreatest).
  exists lo, hi. auto.
Qed.

(** ** Numerically equal vectors *)


(** ** The values computed from a finite bounding box *)

Lemma py_min3_fin (a b c : Q) :
  ∃ m, py_min3 (Fin a) (Fin b) (Fin c) = Fin m
       ∧ m <= a ∧ m <= b ∧ m <= c ∧ (m = a ∨ m = b ∨ m = c).
Proof.
  unfold py_min3.
  destruct (py_min_fin a b) as (m0 & -> & Ha & Hb & Hm0).
  destruct (py_min_fin m0 c) as (m & -> & Hm & Hc & Hm1).
  exists m. repeat split; auto; try lra.
  destruct Hm1 as [->| ->]; [destruct Hm0 as [->| ->]|]; auto.
Qed.

(** The least of three sizes scales with the sizes. *)
Lemma py_min3_scale (s a b c a' b' c' m m' : Q) :
  0 <= s → a' == s * a → b' == s * b → c' == s * c →
  py_min3 (Fin a) (Fin b) (Fin c) = Fin m →
  py_min3 (Fin a') (Fin b') (Fin c') = Fin m' →
  m' == s * m.
Proof.
  intros Hs Ha Hb Hc Hm Hm'.
  destruct (py_min3_fin a b c) as (n & Hn & H1 & H2 & H3 & H4).
  destruct (py_min3_fin a' b' c') as (n' & Hn' & H1' & H2' & H3' & H4').
  rewrite Hm in Hn. rewrite Hm' in Hn'.
  injection Hn as <-. injection Hn' as <-.
  destruct H4 as [->|[->| ->]]; destruct H4' as [->|[->| ->]]; nra.
Qed.

Lemma scaling_factor_of_fin (m : Q) :
  ∃ s, scaling_factor_of (Fin m) = Some (Fin s) ∧ 0 < s
       ∧ ((0 < m ∧ s = 1 / m) ∨ (m <= 0 ∧ s = 1)).
Proof.
  unfold scaling_factor_of; simpl. destruct (Qltb 0 m) eqn:Hlt.
  - apply Qltb_lt in Hlt. destruct (Qeq_bool m 0) eqn:Hz.
    + apply Qeq_bool_iff in Hz. lra.
    + exists (1 / m). split; [reflexivity|]. split; [|auto].
      apply Qlt_shift_div_l; lra.
  - apply Qltb_ge in Hlt. exists 1. split; [reflexivity|]. split; [lra | auto].
Qed.

Lemma bindings_of_fin (x0 y0 z0 x1 y1 z1 : Q) :
  let e := {| ecs_min_x := Fin x0; ecs_min_y := Fin y0; ecs_min_z := Fin z0;
              ecs_max_x := Fin x1; ecs_max_y := Fin y1; ecs_max_z := Fin z1 |} in
  ∃ m s,
    min_dimension e = Fin m
    ∧ py_min3 (Fin (x1 - x0)) (Fin (y1 - y0)) (Fin (z1 - z0)) = Fin m
    ∧ 0 < s ∧ ((0 < m ∧ s = 1 / m) ∨ (m <= 0 ∧ s = 1))
    ∧ bindings_of e
      = Some {| scaling_factor := Fin s;
                ecs_center := vec ((x0 + x1) / 2 * s) ((y0 + y1) / 2 * s)
                                  ((z0 + z1) / 2 * s) |}.
Proof.
  intros e.
  destruct (py_min3_fin (x1 - x0) (y1 - y0) (z1 - z0)) as (m & Hm & _).
  destruct (scaling_factor_of_fin m) as (s & Hs & Hpos & Hcases).
  exists m, s. repeat split; auto.
  unfold bindings_of.
  change (min_dimension e) with (py_min3 (Fin (x1 - x0)) (Fin (y1 - y0)) (Fin (z1 - z0))).
  rewrite Hm, Hs. reflexivity.
Qed.

(** ** The bounding box of a well-formed scene, before and after *)

Lemma axes_finite (ws : list Vector) :
  Forall (λ w, vector_finite w = true) ws →
  all_finite (map vx ws) ∧ all_finite (map vy ws) ∧ all_finite (map vz ws).
Proof.
  induction 1 as [|w ws Hw _ (IHx & IHy & IHz)]; [repeat split; constructor|].
  unfold vector_finite in Hw. rewrite !andb_true_iff in Hw.
  destruct Hw as [[Hx Hy] Hz]. repeat split; constructor; auto.
Qed.

Lemma map_nonempty {A B : Type} (f : A → B) (l : list A) : l ≠ [] → map f l ≠ [].
Proof. destruct l; [contradiction | discriminate]. Qed.

Lemma ecs_extent_flat (sc : Scene) :
  ecs_extent sc
  = let ws := world_vertices (objects sc) (ecs_objects sc) in
    {| ecs_min_x := fold_left py_min (map vx ws) PInf;
       ecs_min_y := fold_left py_min (map vy ws) PInf;
       ecs_min_z := fold_left py_min (map vz ws) PInf;
       ecs_max_x := fold_left py_max (map vx ws) NInf;
       ecs_max_y := fold_left py_max (map vy ws) NInf;
       ecs_max_z := fold_left py_max (map vz ws) NInf |}.
Proof.
  unfold ecs_extent. rewrite extent_objects_flat, extent_fold_components.
  reflexivity.
Qed.

(** The bounding box of a non-empty group of well-formed objects is
    finite, and its lower corner is below its upper corner. *)
Lemma ecs_extent_fin (sc : Scene) :
  scene_ok sc = true → ecs_objects sc ≠ [] →
  ∃ x0 y0 z0 x1 y1 z1,
    ecs_extent sc = extent_fin x0 y0 z0 x1 y1 z1
    ∧ x0 <= x1 ∧ y0 <= y1 ∧ z0 <= z1.
Proof.
  intros Hok Hne. apply scene_ok_spec in Hok as (Hheap & Hvalid & _ & Hsub).
  pose proof (world_vertices_finite _ (ecs_objects sc) Hheap) as Hfin.
  assert (world_vertices (objects sc) (ecs_objects sc) ≠ []) as Hws.
  { apply world_vertices_nonempty; auto. }
  apply axes_finite in Hfin as (Hx & Hy & Hz).
  destruct (fold_axis _ Hx (map_nonempty vx _ Hws))
    as (x0 & x1 & Hx0 & Hx1 & [Hxin _] & [_ Hxle]).
  destruct (fold_axis _ Hy (map_nonempty vy _ Hws))
    as (y0 & y1 & Hy0 & Hy1 & [Hyin _] & [_ Hyle]).
  destruct (fold_axis _ Hz (map_nonempty vz _ Hws))
    as (z0 & z1 & Hz0 & Hz1 & [Hzin _] & [_ Hzle]).
  exists x0, y0, z0, x1, y1, z1. rewrite ecs_extent_flat. simpl.
  rewrite Hx0, Hx1, Hy0, Hy1, Hz0, Hz1. repeat split; auto.
Qed.

Lemma bindings_of_scaling (e : Extent) (b : Bindings) :
  bindings_of e = Some b →
  scaling_factor_of (min_dimension e) = Some (scaling_factor b).
Proof.
  unfold bindings_of.
  destruct (scaling_factor_of (min_dimension e)) as [k|]; [|discriminate].
  cbn [mbind option_bind].
  destruct (center_of (ecs_min_x e) (ecs_max_x e) k); [|discriminate].
  destruct (center_of (ecs_min_y e) (ecs_max_y e) k); [|discriminate].
  destruct (center_of (ecs_min_z e) (ecs_max_z e) k); [|discriminate].
  cbn [mbind option_bind]. intros [= <-]. reflexivity.
Qed.

(** The run of the block on a well-formed scene with ECS objects. *)
Lemma normalize_fin (sc : Scene) :
  scene_ok sc = true → ecs_objects sc ≠ [] →
  ∃ x0 y0 z0 x1 y1 z1 m s,
    ecs_extent sc = extent_fin x0 y0 z0 x1 y1 z1
    ∧ min_dimension (ecs_extent sc) = Fin m
    ∧ 0 < s ∧ ((0 < m ∧ s = 1 / m) ∨ (m <= 0 ∧ s = 1))
    ∧ normalize sc
      = Some (apply_bindings (bindings_fin x0 y0 z0 x1 y1 z1 s) sc,
              Some (bindings_fin x0 y0 z0 x1 y1 z1 s)).
Proof.
  intros Hok Hne.
  destruct (ecs_extent_fin sc Hok Hne) as (x0 & y0 & z0 & x1 & y1 & z1 & He & _).
  destruct (bindings_of_fin x0 y0 z0 x1 y1 z1) as (m & s & Hmd & _ & Hs & Hcases & Hb).
  destruct (normalize_nonempty sc Hne) as (b & Hb' & Hrun).
  rewrite He in Hb'. unfold extent_fin in Hb'. rewrite Hb in Hb'.
  injection Hb' as <-.
  exists x0, y0, z0, x1, y1, z1, m, s. rewrite He.
  repeat split; auto.
Qed.

(** ** Finite values stay finite *)

Lemma rescale_object_ok (s : Q) (o : Object) :
  object_ok o = true → object_ok (rescale_object (Fin s) o) = true.
Proof.
  rewrite !object_ok_spec. intros (Hbb & Hfin & Hl & Hs).
  repeat split; auto. simpl.
  apply vector_finite_vec in Hs as (x & y & z & ->). reflexivity.
Qed.

Lemma shift_object_ok (c : Vector) (o : Object) :
  vector_finite c = true →
  object_ok o = true → object_ok (shift_object c o) = true.
Proof.
  rewrite !object_ok_spec. intros Hc (Hbb & Hfin & Hl & Hs).
  repeat split; auto. simpl.
  apply vector_finite_vec in Hl as (x & y & z & ->).
  apply vector_finite_vec in Hc as (cx & cy & cz & ->). reflexivity.
Qed.

Lemma apply_bindings_ok (s : Q) (c : Vector) (sc : Scene) :
  vector_finite c = true → scene_ok sc = true →
  scene_ok (apply_bindings {| scaling_factor := Fin s; ecs_center := c |} sc) = true.
Proof.
  intros Hc. rewrite !scene_ok_spec. intros (Hheap & Hvalid & Hnd & Hsub).
  repeat split; auto.
  - simpl. unfold shift_all, rescale_all.
    apply for_each_invariant; [intros o; apply shift_object_ok, Hc|].
    apply for_each_invariant; [intros o; apply rescale_object_ok|].
    exact Hheap.
  - intros h Hh. simpl. unfold shift_all, rescale_all.
    apply lookup_lt_is_Some. rewrite !for_each_length.
    apply lookup_lt_is_Some, Hvalid, Hh.
Qed.

(** ** Signs of the scales *)







Lemma min_dimension_extent_fin (x0 y0 z0 x1 y1 z1 : Q) :
  min_dimension (extent_fin x0 y0 z0 x1 y1 z1)
  = py_min3 (Fin (x1 - x0)) (Fin (y1 - y0)) (Fin (z1 - z0)).
Proof. reflexivity. Qed.


(** ** The scaling factor *)



(** ** Degenerate bounding boxes *)

(** C4: when the least size of the bounding box is not above zero the
    block performs no division and binds the scaling factor 1.0 exactly;
    it raises no exception; and on a well-formed scene the centre it binds
    and every coordinate it writes into an object are finite numbers. *)
Theorem degenerate_extent_scale_one (sc : Scene) :
  ecs_objects sc ≠ [] →
  float_ltb (Fin 0) (min_dimension (ecs_extent sc)) = false →
  scaling_factor_of (min_dimension (ecs_extent sc)) = Some (Fin 1)
  ∧ ∃ sc' c,
      normalize sc
      = Some (sc', Some {| scaling_factor := Fin 1; ecs_center := c |})
      ∧ (scene_ok sc = true →
         vector_finite c = true ∧ forallb object_ok (objects sc') = true).
Proof.
  intros Hne Hmd.
  assert (scaling_factor_of (min_dimension (ecs_extent sc)) = Some (Fin 1)) as Hk.
  { unfold scaling_factor_of. rewrite Hmd. reflexivity. }
  split; [exact Hk|].
  destruct (normalize_nonempty sc Hne) as (b & Hb & Hrun).
  pose proof (bindings_of_scaling _ _ Hb) as Hk'. rewrite Hk in Hk'.
  destruct b as [k c]. simpl in Hk'. injection Hk' as <-.
  exists (apply_bindings {| scaling_factor := Fin 1; ecs_center := c |} sc), c.
  split; [exact Hrun|]. intros Hok.
  destruct (normalize_fin sc Hok Hne)
    as (x0 & y0 & z0 & x1 & y1 & z1 & m & s & _ & _ & _ & _ & Hrun').
  rewrite Hrun in Hrun'. injection Hrun' as _ Hs Hc. subst c.
  split; [reflexivity|].
  pose proof (apply_bindings_ok 1 (vec (mid x0 x1 s) (mid y0 y1 s) (mid z0 z1 s))
                sc eq_refl Hok) as Hok'.
  unfold scene_ok in Hok'. rewrite !andb_true_iff in Hok'.
  destruct Hok' as [[[Hheap _] _] _]. exact Hheap.
Qed.

Lemma degenerate_extent_scale_one_witness :
  scaling_factor_of (min_dimension (ecs_extent scene_point)) = Some (Fin 1)
  ∧ ∃ sc' c,
      normalize scene_point
      = Some (sc', Some {| scaling_factor := Fin 1; ecs_center := c |})
      ∧ (scene_ok scene_point = true →
         vector_finite c = true ∧ forallb object_ok (objects sc') = true).
Proof.
  apply (degenerate_extent_scale_one scene_point).
  - discriminate.
  - reflexivity.
Defined.

(** ** The 2 x 4 x 8 box *)

(** C3: for one ECS object with no prior scale or translation whose
    corners span a 2 x 4 x 8 box, the block binds the scaling factor 1/2;
    the bounding box measured afterwards has size (1, 2, 4) and its centre
    at the origin.  This holds for the box with a corner at the origin,
    where the offset subtracted is (1/2, 1, 2), and for the box centred on
    the origin, where it is zero. *)
Theorem normalize_box248 :
  (∃ sc' b c,
     normalize scene_box248 = Some (sc', Some b)
     ∧ scaling_factor b = Fin (1 # 2)
     ∧ vector_eqv (ecs_center b) (vec (1 # 2) 1 2)
     ∧ float_eqv (ecs_size_x (ecs_extent sc')) (Fin 1)
     ∧ float_eqv (ecs_size_y (ecs_extent sc')) (Fin 2)
     ∧ float_eqv (ecs_size_z (ecs_extent sc')) (Fin 4)
     ∧ extent_center (ecs_extent sc') = Some c
     ∧ vector_eqv c zero_vector)
  ∧ (∃ sc' b c,
       normalize scene_box248_cell = Some (sc', Some b)
       ∧ scaling_factor b = Fin (1 # 2)
       ∧ vector_eqv (ecs_center b) zero_vector
       ∧ float_eqv (ecs_size_x (ecs_extent sc')) (Fin 1)
       ∧ float_eqv (ecs_size_y (ecs_extent sc')) (Fin 2)
       ∧ float_eqv (ecs_size_z (ecs_extent sc')) (Fin 4)
       ∧ extent_center (ecs_extent sc') = Some c
       ∧ vector_eqv c zero_vector).
Proof.
  split; eexists _, _, _;
    (split; [vm_compute; reflexivity|]);
    repeat split; vm_compute; reflexivity.
Qed.

(** ** A bounding box below the range of single precision *)

(** C1: the cube of side 2^-130 at the origin is a well-formed scene with
    positive sizes, and the block binds the scaling factor 2^130 for it,
    the reciprocal of its least size.  Every object is asked to take this
    scale, which is above the largest single-precision number.  With the
    scale that the host stores in its place, the least size of the
    bounding box measured afterwards is at most 1/4, not 1. *)
Theorem tiny_cube_least_size_quarter :
  scene_ok scene_tiny_cube = true
  ∧ positive_extent scene_tiny_cube = true
  ∧ ∃ sc' b o m,
      normalize scene_tiny_cube = Some (sc', Some b)
      ∧ float_eqv (scaling_factor b) (Fin (inject_Z (2 ^ 130)))
      ∧ objects sc' !! 0%nat = Some o
      ∧ vector_eqv (scale o)
          (vec (inject_Z (2 ^ 130)) (inject_Z (2 ^ 130)) (inject_Z (2 ^ 130)))
      ∧ binary32 (inject_Z (2 ^ 130)) = false
      ∧ FLT_MAX < inject_Z (2 ^ 130)
      ∧ min_dimension (ecs_extent (stored sc')) = Fin m
      ∧ 0 < m <= 1 # 4.
Proof.
  split; [reflexivity|]. split; [reflexivity|].
  eexists _, _, _, _.
  split; [vm_compute; reflexivity|].
  split; [vm_compute; reflexivity|].
  split; [reflexivity|].
  split; [vm_compute; reflexivity|].
  split; [vm_compute; reflexivity|].
  split; [vm_compute; reflexivity|].
  split; [vm_compute; reflexivity|].
  split; [vm_compute; reflexivity | vm_compute; discriminate].
Qed.

(** C2: for the same cube the block binds the offset (1/2, 1/2, 1/2),
    the centre of the box that the scale 2^130 would give, and every
    object ends with the translation (-1/2, -1/2, -1/2).  With the scale
    that the host stores, the centre of the bounding box measured
    afterwards is at most -3/8 on each axis, not zero. *)
Theorem tiny_cube_center_off_origin :
  ∃ sc' b o cx cy cz,
    normalize scene_tiny_cube = Some (sc', Some b)
    ∧ vector_eqv (ecs_center b) (vec (1 # 2) (1 # 2) (1 # 2))
    ∧ objects sc' !! 0%nat = Some o
    ∧ vector_eqv (location o) (vec (-1 # 2) (-1 # 2) (-1 # 2))
    ∧ extent_center (ecs_extent (stored sc')) = Some (vec cx cy cz)
    ∧ cx <= -3 # 8 ∧ cy <= -3 # 8 ∧ cz <= -3 # 8.
Proof.
  eexists _, _, _, _, _, _.
  split; [vm_compute; reflexivity|].
  split; [vm_compute; reflexivity|].
  split; [reflexivity|].
  split; [vm_compute; reflexivity|].
  split; [vm_compute; reflexivity|].
  repeat split; vm_compute; discriminate.
Qed.

(** ** Running the block twice *)

Lemma list_eqb_refl {A : Type} (eqb : A → A → bool) (l : list A) :
  (∀ x, eqb x x = true) → list_eqb eqb l l = true.
Proof.
  intros Hrefl. induction l as [|x l IH]; simpl; [reflexivity|].
  rewrite Hrefl, IH. reflexivity.
Qed.

Lemma list_eqb_lookup {A : Type} (eqb : A → A → bool) (l k : list A) :
  length l = length k →
  (∀ i x y, l !! i = Some x → k !! i = Some y → eqb x y = true) →
  list_eqb eqb l k = true.
Proof.
  revert k; induction l as [|x l IH]; intros [|y k] Hlen Hall;
    try discriminate; [reflexivity|].
  simpl. rewrite (Hall 0%nat x y eq_refl eq_refl). simpl.
  apply IH; [simpl in Hlen; congruence|].
  intros i a b Ha Hb. exact (Hall (S i) a b Ha Hb).
Qed.

Lemma vector_eqb_refl (v : Vector) : vector_eqb v v = true.
Proof. exact (vector_eqv_refl v). Qed.

Lemma object_eqb_refl (o : Object) : object_eqb o o = true.
Proof.
  unfold object_eqb.
  rewrite String.eqb_refl, (list_eqb_refl vector_eqb) by apply vector_eqb_refl.
  rewrite !vector_eqb_refl. reflexivity.
Qed.

Lemma scene_eqb_refl (sc : Scene) : scene_eqb sc sc = true.
Proof.
  unfold scene_eqb.
  rewrite (list_eqb_refl object_eqb) by apply object_eqb_refl.
  rewrite !(list_eqb_refl Nat.eqb) by apply Nat.eqb_refl. reflexivity.
Qed.




(** With the matrices up to date the block is the block. *)
Lemma normalize_seen_fresh (sc : Scene) : normalize_seen sc sc = normalize sc.
Proof. reflexivity. Qed.






(** * Further properties of the block *)

(** ** The bounding box is the smallest box around the corners *)

Lemma elem_of_world_vertices (heap : list Object) (hs : list nat) (w : Vector) :
  w ∈ world_vertices heap hs ↔
  ∃ h o v, h ∈ hs ∧ heap !! h = Some o ∧ v ∈ bound_box o ∧ w = matrix_world o v.
Proof.
  unfold world_vertices. rewrite list_elem_of_In, in_flat_map. split.
  - intros (h & Hh & Hw). destruct (heap !! h) as [o|] eqn:Ho; [|destruct Hw].
    apply in_map_iff in Hw as (v & <- & Hv).
    exists h, o, v. rewrite !list_elem_of_In. auto.
  - intros (h & o & v & Hh & Ho & Hv & ->). exists h.
    apply list_elem_of_In in Hh. apply list_elem_of_In in Hv. split; [exact Hh|].
    rewrite Ho. apply in_map, Hv.
Qed.

Lemma elem_of_axis (p : Vector → float) (ws : list Vector) (a : float) :
  a ∈ map p ws ↔ ∃ w, w ∈ ws ∧ p w = a.
Proof.
  rewrite list_elem_of_In, in_map_iff. setoid_rewrite list_elem_of_In.
  split; intros (w & H1 & H2); exists w; auto.
Qed.

(** The six bounds of a well-formed scene are the least and the greatest
    coordinates of the world-space corners. *)
Lemma ecs_extent_spec (sc : Scene) :
  scene_ok sc = true → ecs_objects sc ≠ [] →
  let ws := world_vertices (objects sc) (ecs_objects sc) in
  ∃ x0 y0 z0 x1 y1 z1,
    ecs_extent sc = extent_fin x0 y0 z0 x1 y1 z1
    ∧ is_least (map vx ws) x0 ∧ is_greatest (map vx ws) x1
    ∧ is_least (map vy ws) y0 ∧ is_greatest (map vy ws) y1
    ∧ is_least (map vz ws) z0 ∧ is_greatest (map vz ws) z1.
Proof.
  intros Hok Hne ws. apply scene_ok_spec in Hok as (Hheap & Hvalid & _ & Hsub).
  pose proof (world_vertices_finite _ (ecs_objects sc) Hheap) as Hfin.
  assert (ws ≠ []) as Hws by (apply world_vertices_nonempty; auto).
  apply axes_finite in Hfin as (Hx & Hy & Hz).
  destruct (fold_axis _ Hx (map_nonempty vx _ Hws)) as (x0 & x1 & Hx0 & Hx1 & Lx & Gx).
  destruct (fold_axis _ Hy (map_nonempty vy _ Hws)) as (y0 & y1 & Hy0 & Hy1 & Ly & Gy).
  destruct (fold_axis _ Hz (map_nonempty vz _ Hws)) as (z0 & z1 & Hz0 & Hz1 & Lz & Gz).
  subst ws.
  exists x0, y0, z0, x1, y1, z1. rewrite ecs_extent_flat. cbv zeta.
  rewrite Hx0, Hx1, Hy0, Hy1, Hz0, Hz1.
  split; [reflexivity|]. auto 10.
Qed.

(** X1: on a well-formed scene the box that the two nested loops compute
    contains the world-space position of every corner of every ECS
    object, and each of its six faces passes through one of them. *)
Theorem ecs_extent_smallest_box (sc : Scene) :
  scene_ok sc = true → ecs_objects sc ≠ [] →
  ∃ x0 y0 z0 x1 y1 z1,
    ecs_extent sc = extent_fin x0 y0 z0 x1 y1 z1
    ∧ (∀ h o v, h ∈ ecs_objects sc → objects sc !! h = Some o →
                v ∈ bound_box o →
                ∃ wx wy wz, matrix_world o v = vec wx wy wz
                            ∧ x0 <= wx <= x1 ∧ y0 <= wy <= y1 ∧ z0 <= wz <= z1)
    ∧ touches sc vx x0 ∧ touches sc vx x1
    ∧ touches sc vy y0 ∧ touches sc vy y1
    ∧ touches sc vz z0 ∧ touches sc vz z1.
Proof.
  intros Hok Hne.
  destruct (ecs_extent_spec sc Hok Hne)
    as (x0 & y0 & z0 & x1 & y1 & z1 & He & [Ix0 Lx] & [Ix1 Gx]
        & [Iy0 Ly] & [Iy1 Gy] & [Iz0 Lz] & [Iz1 Gz]).
  exists x0, y0, z0, x1, y1, z1. split; [exact He|]. split.
  - intros h o v Hh Ho Hv.
    apply scene_ok_spec in Hok as (Hheap & _).
    assert (matrix_world o v ∈ world_vertices (objects sc) (ecs_objects sc)) as Hw.
    { apply elem_of_world_vertices. exists h, o, v. auto. }
    pose proof (world_vertices_finite _ (ecs_objects sc) Hheap) as Hfin.
    rewrite Forall_forall in Hfin. pose proof (Hfin _ Hw) as Hwfin.
    apply vector_finite_vec in Hwfin as (wx & wy & wz & Hweq).
    exists wx, wy, wz. split; [exact Hweq|].
    assert (∀ p : Vector → float,
              p (matrix_world o v)
              ∈ map p (world_vertices (objects sc) (ecs_objects sc))) as Hp.
    { intros p. apply elem_of_axis. eauto. }
    pose proof (Hp vx) as Hpx. pose proof (Hp vy) as Hpy. pose proof (Hp vz) as Hpz.
    rewrite Hweq in Hpx, Hpy, Hpz. simpl in Hpx, Hpy, Hpz.
    repeat split; auto.
  - assert (∀ (p : Vector → float) q,
              Fin q ∈ map p (world_vertices (objects sc) (ecs_objects sc))
              → touches sc p q) as Htouch.
    { intros p q Hq. apply elem_of_axis in Hq as (w & Hw & Hpw).
      apply elem_of_world_vertices in Hw as (h & o & v & Hh & Ho & Hv & ->).
      exists h, o, v. auto. }
    repeat split; apply Htouch; assumption.
Qed.

Lemma ecs_extent_smallest_box_witness :
  ∃ x0 y0 z0 x1 y1 z1,
    ecs_extent scene_two_cubes = extent_fin x0 y0 z0 x1 y1 z1
    ∧ (∀ h o v, h ∈ ecs_objects scene_two_cubes →
                objects scene_two_cubes !! h = Some o →
                v ∈ bound_box o →
                ∃ wx wy wz, matrix_world o v = vec wx wy wz
                            ∧ x0 <= wx <= x1 ∧ y0 <= wy <= y1 ∧ z0 <= wz <= z1)
    ∧ touches scene_two_cubes vx x0 ∧ touches scene_two_cubes vx x1
    ∧ touches scene_two_cubes vy y0 ∧ touches scene_two_cubes vy y1
    ∧ touches scene_two_cubes vz z0 ∧ touches scene_two_cubes vz z1.
Proof.
  apply (ecs_extent_smallest_box scene_two_cubes); [reflexivity | discriminate].
Defined.

(** ** The fallback factor *)

(** X2: on a well-formed scene the least size is never negative, so the
    guard [min_dimension > 0] fails only for a box that is flat along some
    axis; the factor is then 1, and otherwise it is the reciprocal of the
    least size. *)
Theorem scaling_fallback_only_when_flat (sc : Scene) :
  scene_ok sc = true → ecs_objects sc ≠ [] →
  ∃ m s sc' c,
    min_dimension (ecs_extent sc) = Fin m ∧ 0 <= m
    ∧ normalize sc
      = Some (sc', Some {| scaling_factor := Fin s; ecs_center := c |})
    ∧ ((0 < m ∧ s = 1 / m) ∨ (m == 0 ∧ s = 1)).
Proof.
  intros Hok Hne.
  destruct (ecs_extent_fin sc Hok Hne)
    as (a0 & b0 & c0 & a1 & b1 & c1 & He0 & Hx & Hy & Hz).
  destruct (normalize_fin sc Hok Hne)
    as (x0 & y0 & z0 & x1 & y1 & z1 & m & s & He & Hm & Hs & Hcases & Hrun).
  rewrite He0 in He. injection He as <- <- <- <- <- <-.
  rewrite He0, min_dimension_extent_fin in Hm.
  destruct (py_min3_fin (a1 - a0) (b1 - b0) (c1 - c0)) as (n & Hn & _ & _ & _ & Hor).
  rewrite Hm in Hn. injection Hn as <-.
  assert (0 <= m) as Hm0 by (destruct Hor as [->|[->| ->]]; lra).
  eexists m, s, _, _. rewrite He0, min_dimension_extent_fin.
  split; [exact Hm|]. split; [exact Hm0|]. split; [exact Hrun|].
  destruct Hcases as [H|[Hle ->]]; [left; exact H|].
  right. split; [lra | reflexivity].
Qed.

Lemma scaling_fallback_only_when_flat_witness :
  ∃ m s sc' c,
    min_dimension (ecs_extent scene_point) = Fin m ∧ 0 <= m
    ∧ normalize scene_point
      = Some (sc', Some {| scaling_factor := Fin s; ecs_center := c |})
    ∧ ((0 < m ∧ s = 1 / m) ∨ (m == 0 ∧ s = 1)).
Proof.
  apply (scaling_fallback_only_when_flat scene_point); [reflexivity | discriminate].
Defined.

(** ** Well-formedness is kept *)

(** X3: the block takes a well-formed scene to a well-formed scene: the
    coordinates stay finite numbers, the lists stay lists of distinct
    objects of the heap. *)
Theorem normalize_keeps_scene_ok (sc : Scene) :
  scene_ok sc = true →
  ∃ sc' b, normalize sc = Some (sc', b) ∧ scene_ok sc' = true.
Proof.
  intros Hok. destruct (ecs_objects sc) as [|h hs] eqn:Hecs.
  - exists sc, None. split; [apply normalize_skipped, Hecs | exact Hok].
  - assert (ecs_objects sc ≠ []) as Hne by (rewrite Hecs; discriminate).
    destruct (normalize_fin sc Hok Hne)
      as (x0 & y0 & z0 & x1 & y1 & z1 & m & s & _ & _ & _ & _ & Hrun).
    eexists _, _. split; [exact Hrun|].
    apply apply_bindings_ok; [reflexivity | exact Hok].
Qed.

Lemma normalize_keeps_scene_ok_witness :
  ∃ sc' b, normalize scene_two_cubes = Some (sc', b) ∧ scene_ok sc' = true.
Proof. apply (normalize_keeps_scene_ok scene_two_cubes). reflexivity. Defined.

(** ** The order of the lists *)

Lemma is_least_unique (l : list float) (m m' : Q) :
  is_least l m → is_least l m' → m == m'.
Proof.
  intros [Hin Hle] [Hin' Hle']. apply Hle in Hin'. apply Hle' in Hin. lra.
Qed.

Lemma is_greatest_unique (l : list float) (m m' : Q) :
  is_greatest l m → is_greatest l m' → m == m'.
Proof.
  intros [Hin Hle] [Hin' Hle']. apply Hle in Hin'. apply Hle' in Hin. lra.
Qed.

Lemma is_least_same_elements (l l' : list float) (m : Q) :
  (∀ x, x ∈ l ↔ x ∈ l') → is_least l m → is_least l' m.
Proof.
  intros Hsame [Hin Hle]. split; [apply Hsame, Hin|].
  intros q Hq. apply Hle, Hsame, Hq.
Qed.

Lemma is_greatest_same_elements (l l' : list float) (m : Q) :
  (∀ x, x ∈ l ↔ x ∈ l') → is_greatest l m → is_greatest l' m.
Proof.
  intros Hsame [Hin Hle]. split; [apply Hsame, Hin|].
  intros q Hq. apply Hle, Hsame, Hq.
Qed.

Lemma axis_same_elements (p : Vector → float) (heap : list Object)
    (hs hs' : list nat) (a : float) :
  hs ≡ₚ hs' →
  a ∈ map p (world_vertices heap hs) ↔ a ∈ map p (world_vertices heap hs').
Proof.
  intros Hperm. rewrite !elem_of_axis.
  setoid_rewrite elem_of_world_vertices.
  split; intros (w & (h & o & v & Hh & Hrest) & Hp);
    exists w; (split; [|exact Hp]); exists h, o, v; (split; [|exact Hrest]).
  - rewrite <- Hperm. exact Hh.
  - rewrite Hperm. exact Hh.
Qed.

Lemma permuted_scene_ok (sc sc2 : Scene) :
  scene_ok sc = true →
  objects sc2 = objects sc →
  all_objects sc2 ≡ₚ all_objects sc →
  ecs_objects sc2 ≡ₚ ecs_objects sc →
  scene_ok sc2 = true.
Proof.
  rewrite !scene_ok_spec. intros (Hheap & Hvalid & Hnd & Hsub) Hobj Hall Hecs.
  rewrite Hobj. repeat split; auto.
  - intros h Hh. apply Hvalid. rewrite <- Hall. exact Hh.
  - rewrite Hall. exact Hnd.
  - intros h Hh. rewrite Hall. apply Hsub. rewrite <- Hecs. exact Hh.
Qed.

Lemma eqv_bindings_object (o : Object) (s s2 cx cy cz cx2 cy2 cz2 : Q) :
  object_ok o = true → s == s2 → cx == cx2 → cy == cy2 → cz == cz2 →
  object_eqb (shift_object (vec cx cy cz) (rescale_object (Fin s) o))
             (shift_object (vec cx2 cy2 cz2) (rescale_object (Fin s2) o))
  = true.
Proof.
  intros Hok Hs Hx Hy Hz.
  apply object_ok_spec in Hok as (_ & _ & Hl & Hsc).
  apply vector_finite_vec in Hl as (lx & ly & lz & Hl).
  apply vector_finite_vec in Hsc as (sx & sy & sz & Hsc).
  unfold object_eqb. simpl.
  rewrite String.eqb_refl, (list_eqb_refl vector_eqb) by apply vector_eqb_refl.
  rewrite Hl, Hsc. simpl. unfold vector_eqb; simpl.
  rewrite !andb_true_iff.
  repeat split; apply Qeq_bool_iff; rewrite ?Hs, ?Hx, ?Hy, ?Hz; reflexivity.
Qed.

(** X6: the block does not depend on the order in which the host listed
    the files: with the same objects, and [all_objects] and [ecs_objects]
    in another order, it binds the same scaling factor and the same centre
    and leaves the same numbers in every object. *)
Theorem normalize_order_independent (sc sc2 : Scene) :
  scene_ok sc = true → ecs_objects sc ≠ [] →
  objects sc2 = objects sc →
  all_objects sc2 ≡ₚ all_objects sc →
  ecs_objects sc2 ≡ₚ ecs_objects sc →
  ∃ r b r2 b2,
    normalize sc = Some (r, Some b) ∧ normalize sc2 = Some (r2, Some b2)
    ∧ float_eqv (scaling_factor b) (scaling_factor b2)
    ∧ vector_eqv (ecs_center b) (ecs_center b2)
    ∧ list_eqb object_eqb (objects r) (objects r2) = true.
Proof.
  intros Hok Hne Hobj Hall Hecs.
  pose proof (permuted_scene_ok sc sc2 Hok Hobj Hall Hecs) as Hok2.
  assert (ecs_objects sc2 ≠ []) as Hne2.
  { intros Hnil. rewrite Hnil in Hecs. apply Permutation_nil in Hecs. auto. }
  destruct (ecs_extent_spec sc Hok Hne)
    as (x0 & y0 & z0 & x1 & y1 & z1 & He & Lx & Gx & Ly & Gy & Lz & Gz).
  destruct (ecs_extent_spec sc2 Hok2 Hne2)
    as (a0 & b0 & c0 & a1 & b1 & c1 & He2 & Lx2 & Gx2 & Ly2 & Gy2 & Lz2 & Gz2).
  rewrite Hobj in Lx2, Gx2, Ly2, Gy2, Lz2, Gz2.
  assert (x0 == a0) as Ex0.
  { eapply is_least_unique; [exact Lx|].
    eapply is_least_same_elements; [|exact Lx2].
    intros a. apply axis_same_elements, Hecs. }
  assert (x1 == a1) as Ex1.
  { eapply is_greatest_unique; [exact Gx|].
    eapply is_greatest_same_elements; [|exact Gx2].
    intros a. apply axis_same_elements, Hecs. }
  assert (y0 == b0) as Ey0.
  { eapply is_least_unique; [exact Ly|].
    eapply is_least_same_elements; [|exact Ly2].
    intros a. apply axis_same_elements, Hecs. }
  assert (y1 == b1) as Ey1.
  { eapply is_greatest_unique; [exact Gy|].
    eapply is_greatest_same_elements; [|exact Gy2].
    intros a. apply axis_same_elements, Hecs. }
  assert (z0 == c0) as Ez0.
  { eapply is_least_unique; [exact Lz|].
    eapply is_least_same_elements; [|exact Lz2].
    intros a. apply axis_same_elements, Hecs. }
  assert (z1 == c1) as Ez1.
  { eapply is_greatest_unique; [exact Gz|].
    eapply is_greatest_same_elements; [|exact Gz2].
    intros a. apply axis_same_elements, Hecs. }
  destruct (normalize_fin sc Hok Hne)
    as (x0' & y0' & z0' & x1' & y1' & z1' & m & s & He' & Hm & Hs & Hcases & Hrun).
  rewrite He in He'. injection He' as <- <- <- <- <- <-.
  destruct (normalize_fin sc2 Hok2 Hne2)
    as (a0' & b0' & c0' & a1' & b1' & c1' & m2 & s2 & He2' & Hm2 & Hs2 & Hcases2
        & Hrun2).
  rewrite He2 in He2'. injection He2' as <- <- <- <- <- <-.
  rewrite He, min_dimension_extent_fin in Hm.
  rewrite He2, min_dimension_extent_fin in Hm2.
  assert (m2 == 1 * m) as Hmeq.
  { apply (py_min3_scale 1 (x1 - x0) (y1 - y0) (z1 - z0)
             (a1 - a0) (b1 - b0) (c1 - c0) m m2); auto; lra. }
  assert (s == s2) as Hseq.
  { destruct Hcases as [[Hpos ->]|[Hle ->]];
      destruct Hcases2 as [[Hpos2 ->]|[Hle2 ->]]; try lra.
    rewrite Hmeq. field. lra. }
  eexists _, _, _, _. split; [exact Hrun|]. split; [exact Hrun2|].
  assert (mid x0 x1 s == mid a0 a1 s2) as Hcx
    by (unfold mid; rewrite Ex0, Ex1, Hseq; reflexivity).
  assert (mid y0 y1 s == mid b0 b1 s2) as Hcy
    by (unfold mid; rewrite Ey0, Ey1, Hseq; reflexivity).
  assert (mid z0 z1 s == mid c0 c1 s2) as Hcz
    by (unfold mid; rewrite Ez0, Ez1, Hseq; reflexivity).
  split; [apply float_eqv_fin, Hseq|].
  split; [apply vector_eqv_split; simpl; repeat split; apply float_eqv_fin;
          assumption|].
  pose proof Hok as Hspec. apply scene_ok_spec in Hspec as (Hheap & _ & Hnd & _).
  pose proof Hok2 as Hspec2. apply scene_ok_spec in Hspec2 as (_ & _ & Hnd2 & _).
  apply list_eqb_lookup.
  - simpl. unfold shift_all, rescale_all. rewrite !for_each_length.
    rewrite Hobj. reflexivity.
  - intros h o1 o2 Ho1 Ho2.
    destruct (decide (h ∈ all_objects sc)) as [Hin|Hnotin].
    + assert (h ∈ all_objects sc2) as Hin2 by (rewrite Hall; exact Hin).
      rewrite apply_bindings_in in Ho1 by assumption.
      rewrite apply_bindings_in, Hobj in Ho2 by assumption.
      destruct (objects sc !! h) as [o|] eqn:Ho; [|discriminate].
      injection Ho1 as <-. injection Ho2 as <-.
      apply eqv_bindings_object; auto.
      rewrite Forall_forall in Hheap. apply Hheap, list_elem_of_lookup. eauto.
    + assert (h ∉ all_objects sc2) as Hnotin2 by (rewrite Hall; exact Hnotin).
      rewrite apply_bindings_notin in Ho1 by assumption.
      rewrite apply_bindings_notin, Hobj in Ho2 by assumption.
      rewrite Ho1 in Ho2. injection Ho2 as <-. apply object_eqb_refl.
Qed.

Lemma normalize_order_independent_witness :
  ∃ r b r2 b2,
    normalize scene_two_cubes = Some (r, Some b)
    ∧ normalize {| objects := [cube_a; cube_b];
                   all_objects := [1%nat; 0%nat];
                   ecs_objects := [1%nat; 0%nat];
                   cell_objects := [] |} = Some (r2, Some b2)
    ∧ float_eqv (scaling_factor b) (scaling_factor b2)
    ∧ vector_eqv (ecs_center b) (ecs_center b2)
    ∧ list_eqb object_eqb (objects r) (objects r2) = true.
Proof.
  apply (normalize_order_independent scene_two_cubes
           {| objects := [cube_a; cube_b]; all_objects := [1%nat; 0%nat];
              ecs_objects := [1%nat; 0%nat]; cell_objects := [] |}).
  - reflexivity.
  - discriminate.
  - reflexivity.
  - apply perm_swap.
  - apply perm_swap.
Defined.

(** * The centre of the vertices *)

Lemma float_of_nat_pos (n : nat) : n ≠ 0%nat → 0 < inject_Z (Z.of_nat n).
Proof.
  intros Hn. change 0 with (inject_Z 0). rewrite <- Zlt_Qlt.
  apply (Nat2Z.inj_lt 0 n). destruct n; [contradiction | apply Nat.lt_0_succ].
Qed.

Lemma float_of_nat_nonneg (n : nat) : 0 <= inject_Z (Z.of_nat n).
Proof.
  change 0 with (inject_Z 0). rewrite <- Zle_Qle. apply Nat2Z.is_nonneg.
Qed.

Lemma vector_div_nonzero (v : Vector) (n : Q) :
  ¬ n == 0 → ∃ c, vector_div v (Fin n) = Some c.
Proof.
  intros Hn. unfold vector_div, py_div.
  destruct (Qeq_bool n 0) eqn:Hz; [apply Qeq_bool_iff in Hz; contradiction|].
  cbn [mbind option_bind]. eauto.
Qed.

Lemma get_vertex_center_cases (obj : option MeshObject) :
  ∃ r, get_vertex_center obj = Some r
       ∧ (r = None ↔
          match obj with
          | None => True
          | Some m => type m ≠ "MESH"%string ∨ vertices m = []
          end).
Proof.
  destruct obj as [m|]; [|exists None; split; [reflexivity | tauto]].
  unfold get_vertex_center.
  destruct (String.eqb (type m) "MESH") eqn:Htype; simpl negb; cbv iota.
  - apply String.eqb_eq in Htype.
    destruct (vertices m) as [|v vs] eqn:Hvs.
    + exists None. split; [reflexivity|]. split; auto.
    + change (length (v :: vs) =? 0)%nat with false. cbv iota.
      destruct (vector_div_nonzero
                  (fold_left (λ vertex_sum co,
                                vector_add vertex_sum (matrix_world (object m) co))
                             (v :: vs) zero_vector)
                  (inject_Z (Z.of_nat (length (v :: vs))))) as [c Hc].
      { pose proof (float_of_nat_pos (length (v :: vs)) ltac:(discriminate)). lra. }
      unfold float_of_nat. rewrite Hc. cbn [mbind option_bind].
      exists (Some c). split; [reflexivity|].
      split; [discriminate|]. intros [H|H]; [contradiction | discriminate].
  - apply String.eqb_neq in Htype.
    exists None. split; [reflexivity|]. split; auto.
Qed.

(** X7: [get_vertex_center] never raises: the test on the number of
    vertices keeps the division away from zero.  It returns [None] exactly
    when it is given no object, an object that is not a mesh, or a mesh
    without vertices. *)
Theorem get_vertex_center_none (obj : option MeshObject) :
  ∃ r, get_vertex_center obj = Some r
       ∧ (r = None ↔
          match obj with
          | None => True
          | Some m => type m ≠ "MESH"%string ∨ vertices m = []
          end).
Proof. exact (get_vertex_center_cases obj). Qed.

(** The block always ends, with the same list [all_objects] and as many
    objects. *)
Lemma normalize_keeps_lengths (sc : Scene) :
  ∃ sc' b, normalize sc = Some (sc', b)
           ∧ all_objects sc' = all_objects sc
           ∧ length (objects sc') = length (objects sc).
Proof.
  rewrite normalize_unfold. destruct (ecs_objects sc) eqn:Hecs.
  - exists sc, None. auto.
  - destruct (bindings_of_total (ecs_extent sc)) as [b ->].
    cbn [mbind option_bind].
    exists (apply_bindings b sc), (Some b). repeat split.
    simpl. unfold shift_all, rescale_all. rewrite !for_each_length. reflexivity.
Qed.

(** * Random starting positions *)

Lemma uniform_range (a b r : Q) :
  a <= b → 0 <= r <= 1 →
  ∃ q, uniform (Fin a) (Fin b) (Fin r) = Fin q ∧ a <= q <= b.
Proof.
  intros Hab Hr. eexists. split; [reflexivity|]. split; nra.
Qed.

Lemma place_object_in_drop_zone (r1 r2 r3 : Q) (o : Object) :
  0 <= r1 <= 1 → 0 <= r2 <= 1 → 0 <= r3 <= 1 →
  in_drop_zone (location (place_object (Fin r1) (Fin r2) (Fin r3) o)).
Proof.
  intros H1 H2 H3.
  destruct (uniform_range (-2) 2 r1 ltac:(lra) H1) as (x & Hx & Hxr).
  destruct (uniform_range (-2) 2 r2 ltac:(lra) H2) as (y & Hy & Hyr).
  destruct (uniform_range 1 2 r3 ltac:(lra) H3) as (z & Hz & Hzr).
  exists x, y, z. unfold place_object. cbn [location]. rewrite Hx, Hy, Hz. auto.
Qed.

Lemma randomize_length (random : nat → Q) (n : nat) (hs : list nat)
    (heap : list Object) :
  length (randomize random n hs heap) = length heap.
Proof.
  revert n heap; induction hs as [|h hs IH]; intros n heap; simpl;
    [reflexivity|]. rewrite IH. apply length_alter.
Qed.

Lemma randomize_notin (random : nat → Q) (n : nat) (hs : list nat)
    (heap : list Object) (h : nat) :
  h ∉ hs → randomize random n hs heap !! h = heap !! h.
Proof.
  revert n heap; induction hs as [|h' hs IH]; intros n heap Hh; [reflexivity|].
  apply not_elem_of_cons in Hh as [Hne Hh]. simpl.
  rewrite IH by exact Hh. apply list_lookup_alter_ne. congruence.
Qed.

(** An object that is in the list, or already in the drop zone, ends in
    the drop zone, with the scale, the corners and the name it had. *)
Lemma randomize_placed (random : nat → Q) (n : nat) (hs : list nat)
    (heap : list Object) (h : nat) (o : Object) :
  (∀ i, 0 <= random i <= 1) →
  heap !! h = Some o →
  h ∈ hs ∨ in_drop_zone (location o) →
  ∃ o', randomize random n hs heap !! h = Some o'
        ∧ in_drop_zone (location o')
        ∧ scale o' = scale o ∧ bound_box o' = bound_box o ∧ name o' = name o.
Proof.
  intros Hrand. revert n heap o.
  induction hs as [|h' hs IH]; intros n heap o Ho Hcase.
  - destruct Hcase as [Hin|Hzone]; [apply elem_of_nil in Hin as []|].
    exists o. auto.
  - simpl. destruct (decide (h' = h)) as [->|Hne].
    + destruct (IH (n + 3)%nat
                  (alter (place_object (Fin (random n)) (Fin (random (n + 1)%nat))
                                       (Fin (random (n + 2)%nat))) h heap)
                  (place_object (Fin (random n)) (Fin (random (n + 1)%nat))
                                (Fin (random (n + 2)%nat)) o))
        as (o' & Ho' & Hzone & Hs & Hb & Hn).
      { rewrite list_lookup_alter_eq, Ho. reflexivity. }
      { right. apply place_object_in_drop_zone; apply Hrand. }
      exists o'. auto.
    + apply IH.
      * rewrite list_lookup_alter_ne by exact Hne. exact Ho.
      * destruct Hcase as [Hin|Hzone]; [|auto].
        apply elem_of_cons in Hin as [->|Hin]; [contradiction | auto].
Qed.

(** X10: section 7 of [falling.py] puts every object of [all_objects]
    inside the region x, y in [-2, 2] and z in [1, 2], hence above the
    collision plane at height 0, whatever its location was; it keeps the
    scale, the corners and the name of the object, and it does not touch
    an object outside the list. *)
Theorem randomize_drop_zone (random : nat → Q) (n : nat) (hs : list nat)
    (heap : list Object) :
  (∀ i, 0 <= random i <= 1) →
  (∀ h o, h ∈ hs → heap !! h = Some o →
          ∃ o', randomize random n hs heap !! h = Some o'
                ∧ in_drop_zone (location o')
                ∧ scale o' = scale o ∧ bound_box o' = bound_box o
                ∧ name o' = name o)
  ∧ (∀ h, h ∉ hs → randomize random n hs heap !! h = heap !! h).
Proof.
  intros Hrand. split.
  - intros h o Hh Ho. apply randomize_placed; auto.
  - intros h Hh. apply randomize_notin, Hh.
Qed.

Lemma quarters_range (i : nat) : 0 <= quarters i <= 1.
Proof.
  unfold quarters.
  assert (0 <= inject_Z (Z.of_nat (i mod 4)%nat) <= 3) as [H0 H3].
  { split; [apply float_of_nat_nonneg|].
    change 3 with (inject_Z 3). rewrite <- Zle_Qle.
    pose proof (Nat.mod_upper_bound i 4 ltac:(discriminate)). lia. }
  split; [apply Qle_shift_div_l | apply Qle_shift_div_r]; lra.
Qed.

Lemma randomize_drop_zone_witness :
  (∀ h o, h ∈ all_objects scene_two_cubes →
          objects scene_two_cubes !! h = Some o →
          ∃ o', randomize quarters 0 (all_objects scene_two_cubes)
                  (objects scene_two_cubes) !! h = Some o'
                ∧ in_drop_zone (location o')
                ∧ scale o' = scale o ∧ bound_box o' = bound_box o
                ∧ name o' = name o)
  ∧ (∀ h, h ∉ all_objects scene_two_cubes →
          randomize quarters 0 (all_objects scene_two_cubes)
            (objects scene_two_cubes) !! h
          = objects scene_two_cubes !! h).
Proof.
  apply (randomize_drop_zone quarters 0 (all_objects scene_two_cubes)
           (objects scene_two_cubes)).
  exact quarters_range.
Defined.

(** The location that the loop leaves in an object of the list does not
    depend on the heap it started from. *)
Lemma randomize_location_independent (random : nat → Q) (n : nat)
    (hs : list nat) (heap1 heap2 : list Object) (h : nat) :
  length heap1 = length heap2 →
  h ∈ hs ∨ location <$> heap1 !! h = location <$> heap2 !! h →
  location <$> randomize random n hs heap1 !! h
  = location <$> randomize random n hs heap2 !! h.
Proof.
  revert n heap1 heap2.
  induction hs as [|h' hs IH]; intros n heap1 heap2 Hlen Hcase.
  - destruct Hcase as [Hin|Heq]; [apply elem_of_nil in Hin as [] | exact Heq].
  - simpl. apply IH; [rewrite !length_alter; exact Hlen|].
    destruct (decide (h' = h)) as [->|Hne].
    + right. rewrite !list_lookup_alter_eq.
      destruct (heap1 !! h) as [o1|] eqn:H1; destruct (heap2 !! h) as [o2|] eqn:H2;
        try reflexivity.
      * apply lookup_lt_Some in H1. apply lookup_ge_None in H2. lia.
      * apply lookup_lt_Some in H2. apply lookup_ge_None in H1. lia.
    + rewrite !list_lookup_alter_ne by exact Hne.
      destruct Hcase as [Hin|Heq]; [|auto].
      apply elem_of_cons in Hin as [->|Hin]; [contradiction | auto].
Qed.

(** X11: in [falling.py] the centring of section 6 is overwritten by
    section 7: after both sections every object of [all_objects] has the
    location that section 7 alone would have given it, and the scale that
    section 6 gave it. *)
Theorem randomize_discards_centering (random : nat → Q) (sc : Scene) (h : nat) :
  h ∈ all_objects sc →
  ∃ sc' b heap',
    normalize sc = Some (sc', b)
    ∧ normalize_then_randomize random sc = Some heap'
    ∧ location <$> heap' !! h
      = location <$> randomize random 0 (all_objects sc) (objects sc) !! h
    ∧ scale <$> heap' !! h = scale <$> objects sc' !! h.
Proof.
  intros Hh.
  destruct (normalize_keeps_lengths sc) as (sc' & b & Hrun & Hall & Hlen).
  exists sc', b, (randomize random 0 (all_objects sc') (objects sc')).
  split; [exact Hrun|]. split.
  { unfold normalize_then_randomize, normalized. rewrite Hrun. reflexivity. }
  rewrite Hall. split.
  - apply randomize_location_independent; auto.
  - destruct (objects sc' !! h) as [o|] eqn:Ho.
    + assert (∀ hs n heap o0, heap !! h = Some o0 →
                scale <$> randomize random n hs heap !! h = Some (scale o0))
        as Hscale.
      { induction hs as [|h' hs IH]; intros n heap o0 Ho0; simpl.
        - rewrite Ho0. reflexivity.
        - destruct (decide (h' = h)) as [->|Hne].
          + erewrite IH; [|rewrite list_lookup_alter_eq, Ho0; reflexivity].
            reflexivity.
          + apply IH. rewrite list_lookup_alter_ne by exact Hne. exact Ho0. }
      rewrite (Hscale _ _ _ o Ho). reflexivity.
    + apply lookup_ge_None in Ho.
      assert (randomize random 0 (all_objects sc) (objects sc') !! h = None) as ->.
      { apply lookup_ge_None. rewrite randomize_length. exact Ho. }
      reflexivity.
Qed.

Lemma randomize_discards_centering_witness :
  ∃ sc' b heap',
    normalize scene_box248_cell = Some (sc', b)
    ∧ normalize_then_randomize quarters scene_box248_cell = Some heap'
    ∧ location <$> heap' !! 1%nat
      = location <$> randomize quarters 0 (all_objects scene_box248_cell)
                       (objects scene_box248_cell) !! 1%nat
    ∧ scale <$> heap' !! 1%nat = scale <$> objects sc' !! 1%nat.
Proof.
  apply (randomize_discards_centering quarters scene_box248_cell 1).
  apply existsb_eqb_elem. reflexivity.
Defined.

(** * Keyframes of the cells *)









(** * Paths of the cells *)

Lemma follow_cell_none (i : nat) (m : MeshObject) :
  follow_cell i m = None ↔ type m ≠ "MESH"%string ∨ vertices m = [].
Proof.
  unfold follow_cell.
  destruct (get_vertex_center_cases (Some m)) as (r & -> & Hr).
  cbn [mbind option_bind]. destruct r as [c|].
  - split; [discriminate|]. intros H. apply Hr in H. discriminate.
  - split; [intros _; apply Hr; reflexivity | reflexivity].
Qed.

(** X13: section 7 of [follow.py] stops with an exception exactly when
    some cell has no centre, that is when it is not a mesh or its mesh has
    no vertex: the [None] that [get_vertex_center] returns for such a cell
    is subtracted from as if it were a vector. *)
Theorem follow_cells_raises (i : nat) (cells : list MeshObject) :
  follow_cells i cells = None ↔
  ∃ m, m ∈ cells ∧ (type m ≠ "MESH"%string ∨ vertices m = []).
Proof.
  revert i; induction cells as [|m cells IH]; intros i; simpl.
  - split; [discriminate|]. intros (m & Hm & _). apply elem_of_nil in Hm as [].
  - destruct (follow_cell i m) as [p|] eqn:Hp; cbn [mbind option_bind].
    + assert (¬ (type m ≠ "MESH"%string ∨ vertices m = [])) as Hgood.
      { intros H. apply (follow_cell_none i) in H. congruence. }
      destruct (follow_cells (S i) cells) as [ps|] eqn:Hps; cbn [mbind option_bind].
      * split; [discriminate|]. intros (m' & Hm' & Hbad).
        apply elem_of_cons in Hm' as [->|Hm']; [contradiction|].
        assert (follow_cells (S i) cells = None) as Hnone
          by (apply IH; eauto). congruence.
      * split; [|reflexivity]. intros _.
        destruct (proj1 (IH (S i)) Hps) as (m' & Hm' & Hbad).
        exists m'. split; [apply list_elem_of_further, Hm' | exact Hbad].
    + split; [|reflexivity]. intros _. exists m.
      split; [apply list_elem_of_here | apply (follow_cell_none i), Hp].
Qed.

(** * The import loops *)

Lemma string_length_append (p s : string) :
  String.length (String.append p s) = (String.length p + String.length s)%nat.
Proof. induction p as [|c p IH]; simpl; [reflexivity | rewrite IH; reflexivity]. Qed.

Lemma substring_full (s : string) : String.substring 0 (String.length s) s = s.
Proof. induction s as [|c s IH]; simpl; [reflexivity | rewrite IH; reflexivity]. Qed.

Lemma substring_append_skip (p s : string) (k : nat) :
  String.substring (String.length p) k (String.append p s)
  = String.substring 0 k s.
Proof. induction p as [|c p IH]; simpl; [reflexivity | exact IH]. Qed.

Lemma substring_split (s : string) (i : nat) :
  (i <= String.length s)%nat →
  s = String.append (String.substring 0 i s)
                    (String.substring i (String.length s - i) s).
Proof.
  revert i; induction s as [|c s IH]; intros i Hi.
  - simpl in Hi. assert (i = 0%nat) as -> by lia. reflexivity.
  - destruct i as [|i].
    + change (String.substring 0 0 (String c s)) with EmptyString.
      rewrite Nat.sub_0_r, substring_full. reflexivity.
    + simpl in Hi. simpl. f_equal. apply IH. lia.
Qed.

(** [endswith] holds exactly for the strings that are some stem followed
    by the suffix. *)
Lemma endswith_spec (s suffix : string) :
  endswith s suffix = true ↔ ∃ stem, s = String.append stem suffix.
Proof.
  unfold endswith. rewrite andb_true_iff, Nat.leb_le, String.eqb_eq. split.
  - intros [Hle Hsub].
    exists (String.substring 0 (String.length s - String.length suffix) s).
    pose proof (substring_split s (String.length s - String.length suffix)
                  ltac:(lia)) as Hsplit.
    replace (String.length s - (String.length s - String.length suffix))%nat
      with (String.length suffix) in Hsplit by lia.
    rewrite Hsub in Hsplit. exact Hsplit.
  - intros [stem ->]. rewrite string_length_append. split; [lia|].
    replace (String.length stem + String.length suffix - String.length suffix)%nat
      with (String.length stem) by lia.
    rewrite substring_append_skip. apply substring_full.
Qed.

Lemma load_ecs_loop (ply_import : string → option Object)
    (rename : nat → string → string) (listing : list string) (sc : Scene) :
  for_listing (load_ecs ply_import rename) listing sc
  = objs ← import_files ply_import rename ecs_dir "ECS_"
             (length (objects sc)) (ply_files listing);
    Some {| objects := objects sc ++ objs;
            all_objects := all_objects sc
                           ++ seq (length (objects sc)) (length objs);
            ecs_objects := ecs_objects sc
                           ++ seq (length (objects sc)) (length objs);
            cell_objects := cell_objects sc |}.
Proof.
  revert sc; induction listing as [|f listing IH]; intros sc.
  - simpl. rewrite !app_nil_r. destruct sc; reflexivity.
  - cbn [for_listing].
    pose proof (eq_refl (load_ecs ply_import rename sc f)) as Hstep.
    unfold load_ecs at 2 in Hstep. unfold ply_files. cbn [List.filter].
    destruct (endswith f ".ply").
    + cbn [import_files].
      destruct (ply_import (os_path_join ecs_dir f)) as [mesh|];
        cbn [mbind option_bind] in Hstep; rewrite Hstep;
        cbn [mbind option_bind]; [|reflexivity].
      rewrite IH. cbn [objects all_objects ecs_objects cell_objects].
      rewrite length_app, Nat.add_1_r. fold (ply_files listing).
      destruct (import_files ply_import rename ecs_dir "ECS_"
                  (S (length (objects sc))) (ply_files listing)) as [rest|];
        cbn [mbind option_bind]; [|reflexivity].
      rewrite <- !app_assoc. reflexivity.
    + rewrite Hstep. cbn [mbind option_bind]. apply IH.
Qed.

Lemma load_cell_loop (ply_import : string → option Object)
    (rename : nat → string → string) (listing : list string) (sc : Scene) :
  for_listing (load_cell ply_import rename) listing sc
  = objs ← import_files ply_import rename cells_dir "Cell_"
             (length (objects sc)) (ply_files listing);
    Some {| objects := objects sc ++ objs;
            all_objects := all_objects sc
                           ++ seq (length (objects sc)) (length objs);
            ecs_objects := ecs_objects sc;
            cell_objects := cell_objects sc
                            ++ seq (length (objects sc)) (length objs) |}.
Proof.
  revert sc; induction listing as [|f listing IH]; intros sc.
  - simpl. rewrite !app_nil_r. destruct sc; reflexivity.
  - cbn [for_listing].
    pose proof (eq_refl (load_cell ply_import rename sc f)) as Hstep.
    unfold load_cell at 2 in Hstep. unfold ply_files. cbn [List.filter].
    destruct (endswith f ".ply").
    + cbn [import_files].
      destruct (ply_import (os_path_join cells_dir f)) as [mesh|];
        cbn [mbind option_bind] in Hstep; rewrite Hstep;
        cbn [mbind option_bind]; [|reflexivity].
      rewrite IH. cbn [objects all_objects ecs_objects cell_objects].
      rewrite length_app, Nat.add_1_r. fold (ply_files listing).
      destruct (import_files ply_import rename cells_dir "Cell_"
                  (S (length (objects sc))) (ply_files listing)) as [rest|];
        cbn [mbind option_bind]; [|reflexivity].
      rewrite <- !app_assoc. reflexivity.
    + rewrite Hstep. cbn [mbind option_bind]. apply IH.
Qed.

(** The imports of a loop fail exactly when one of them does. *)
Lemma import_files_none (ply_import : string → option Object)
    (rename : nat → string → string) (dir prefix : string) (h : nat)
    (files : list string) :
  import_files ply_import rename dir prefix h files = None ↔
  ∃ f, f ∈ files ∧ ply_import (os_path_join dir f) = None.
Proof.
  revert h; induction files as [|f files IH]; intros h; cbn [import_files].
  - split; [discriminate|]. intros (f & Hf & _). apply elem_of_nil in Hf as [].
  - destruct (ply_import (os_path_join dir f)) as [mesh|] eqn:Hmesh;
      cbn [mbind option_bind].
    + destruct (import_files ply_import rename dir prefix (S h) files)
        as [rest|] eqn:Hrest; cbn [mbind option_bind].
      * split; [discriminate|]. intros (f' & Hf' & Hnone).
        apply elem_of_cons in Hf' as [->|Hf']; [congruence|].
        assert (import_files ply_import rename dir prefix (S h) files = None)
          as Habs by (apply IH; eauto).
        congruence.
      * split; [|reflexivity]. intros _.
        destruct (proj1 (IH (S h)) Hrest) as (f' & Hf' & Hnone).
        exists f'. split; [apply list_elem_of_further, Hf' | exact Hnone].
    + split; [|reflexivity]. intros _. exists f.
      split; [apply list_elem_of_here | exact Hmesh].
Qed.

(** When they all succeed there is one object per file, in order: the
    imported mesh under the name the host gives it. *)
Lemma import_files_some (ply_import : string → option Object)
    (rename : nat → string → string) (dir prefix : string) (h : nat)
    (files : list string) (objs : list Object) :
  import_files ply_import rename dir prefix h files = Some objs →
  length objs = length files
  ∧ ∀ k f, files !! k = Some f →
      ∃ mesh, ply_import (os_path_join dir f) = Some mesh
        ∧ objs !! k
          = Some (set_name (rename (h + k)%nat (String.append prefix f)) mesh).
Proof.
  revert h objs; induction files as [|f files IH]; intros h objs;
    cbn [import_files].
  - intros [= <-]. split; [reflexivity|]. intros k f Hk. discriminate.
  - destruct (ply_import (os_path_join dir f)) as [mesh|] eqn:Hmesh;
      cbn [mbind option_bind]; [|discriminate].
    destruct (import_files ply_import rename dir prefix (S h) files)
      as [rest|] eqn:Hrest; cbn [mbind option_bind]; [|discriminate].
    intros [= <-]. destruct (IH (S h) rest Hrest) as (Hlen & Hall).
    split; [simpl; congruence|].
    intros [|k] f' Hk.
    + injection Hk as <-. exists mesh. rewrite Nat.add_0_r. auto.
    + destruct (Hall k f' Hk) as (mesh' & Hm' & Ho').
      exists mesh'. split; [exact Hm'|].
      rewrite <- Nat.add_succ_comm. exact Ho'.
Qed.

(** The scene that the two loops build. *)
Lemma load_meshes_closed (ply_import : string → option Object)
    (rename : nat → string → string)
    (ecs_listing cells_listing : list string) (heap0 : list Object) :
  load_meshes ply_import rename ecs_listing cells_listing heap0
  = E ← import_files ply_import rename ecs_dir "ECS_" (length heap0)
          (ply_files ecs_listing);
    C ← import_files ply_import rename cells_dir "Cell_"
          (length heap0 + length E) (ply_files cells_listing);
    Some {| objects := heap0 ++ E ++ C;
            all_objects := seq (length heap0) (length E)
                           ++ seq (length heap0 + length E) (length C);
            ecs_objects := seq (length heap0) (length E);
            cell_objects := seq (length heap0 + length E) (length C) |}.
Proof.
  unfold load_meshes. rewrite load_ecs_loop.
  cbn [objects all_objects ecs_objects cell_objects].
  destruct (import_files ply_import rename ecs_dir "ECS_" (length heap0)
              (ply_files ecs_listing)) as [E|]; cbn [mbind option_bind];
    [|reflexivity].
  rewrite load_cell_loop.
  cbn [objects all_objects ecs_objects cell_objects].
  rewrite length_app.
  destruct (import_files ply_import rename cells_dir "Cell_"
              (length heap0 + length E) (ply_files cells_listing)) as [C|];
    cbn [mbind option_bind]; [|reflexivity].
  rewrite <- app_assoc. reflexivity.
Qed.

(** X15: the two import loops end with an exception exactly when the
    import of some entry whose name ends in ".ply" raises.  Otherwise
    they build lists of the shape the block relies on: they import the
    entries whose name is a stem followed by ".ply" and no other, in the
    order of the listing, each as a new object of the heap that holds the
    imported mesh under the name the host gives it; so [all_objects] has
    no object twice and is the ECS objects followed by the cells, and the
    objects that existed before are in none of the lists and are left as
    they were. *)
Theorem load_meshes_lists (ply_import : string → option Object)
    (rename : nat → string → string)
    (ecs_listing cells_listing : list string) (heap0 : list Object) :
  let run := load_meshes ply_import rename ecs_listing cells_listing heap0 in
  let n := length heap0 in
  let e := length (ply_files ecs_listing) in
  let c := length (ply_files cells_listing) in
  (run = None ↔
     (∃ f, f ∈ ply_files ecs_listing
           ∧ ply_import (os_path_join ecs_dir f) = None)
     ∨ (∃ f, f ∈ ply_files cells_listing
             ∧ ply_import (os_path_join cells_dir f) = None))
  ∧ (∀ sc, run = Some sc →
       ecs_objects sc = seq n e
       ∧ cell_objects sc = seq (n + e) c
       ∧ all_objects sc = ecs_objects sc ++ cell_objects sc
       ∧ NoDup (all_objects sc)
       ∧ length (objects sc) = (n + e + c)%nat
       ∧ (∀ h, (h < n)%nat → objects sc !! h = heap0 !! h)
       ∧ (∀ k f, ply_files ecs_listing !! k = Some f →
            ∃ mesh, ply_import (os_path_join ecs_dir f) = Some mesh
              ∧ objects sc !! (n + k)%nat
                = Some (set_name (rename (n + k)%nat (String.append "ECS_" f))
                                 mesh))
       ∧ (∀ k f, ply_files cells_listing !! k = Some f →
            ∃ mesh, ply_import (os_path_join cells_dir f) = Some mesh
              ∧ objects sc !! (n + e + k)%nat
                = Some (set_name
                          (rename (n + e + k)%nat (String.append "Cell_" f))
                          mesh)))
  ∧ (∀ listing f, f ∈ ply_files listing ↔
                  f ∈ listing ∧ ∃ stem, f = String.append stem ".ply").
Proof.
  intros run n e c. subst run. rewrite load_meshes_closed.
  split; [|split].
  - destruct (import_files ply_import rename ecs_dir "ECS_" (length heap0)
                (ply_files ecs_listing)) as [E|] eqn:HE; cbn [mbind option_bind].
    + destruct (import_files ply_import rename cells_dir "Cell_"
                  (length heap0 + length E) (ply_files cells_listing))
        as [C|] eqn:HC; cbn [mbind option_bind].
      * split; [discriminate|]. intros [Hbad|Hbad].
        -- apply import_files_none with (rename := rename) (prefix := "ECS_"%string)
             (h := length heap0) in Hbad. congruence.
        -- apply import_files_none with (rename := rename) (prefix := "Cell_"%string)
             (h := (length heap0 + length E)%nat) in Hbad. congruence.
      * split; [|reflexivity]. intros _. right.
        apply import_files_none in HC. exact HC.
    + split; [|reflexivity]. intros _. left.
      apply import_files_none in HE. exact HE.
  - intros sc.
    destruct (import_files ply_import rename ecs_dir "ECS_" (length heap0)
                (ply_files ecs_listing)) as [E|] eqn:HE; cbn [mbind option_bind];
      [|discriminate].
    destruct (import_files ply_import rename cells_dir "Cell_"
                (length heap0 + length E) (ply_files cells_listing))
      as [C|] eqn:HC; cbn [mbind option_bind]; [|discriminate].
    intros [= <-]. cbn [objects all_objects ecs_objects cell_objects].
    apply import_files_some in HE as (HlenE & HallE).
    apply import_files_some in HC as (HlenC & HallC).
    subst n e c. rewrite <- HlenE, <- HlenC.
    split; [reflexivity|]. split; [reflexivity|]. split; [reflexivity|].
    split; [rewrite <- seq_app; apply NoDup_seq|].
    split; [rewrite !length_app; lia|].
    split; [intros h Hh; apply lookup_app_l, Hh|].
    split.
    + intros k f Hk. destruct (HallE k f Hk) as (mesh & Hmesh & Ho).
      exists mesh. split; [exact Hmesh|].
      rewrite lookup_app_r by lia.
      replace (length heap0 + k - length heap0)%nat with k by lia.
      rewrite lookup_app_l by (apply lookup_lt_Some in Ho; exact Ho).
      exact Ho.
    + intros k f Hk. destruct (HallC k f Hk) as (mesh & Hmesh & Ho).
      exists mesh. split; [exact Hmesh|].
      rewrite lookup_app_r by lia.
      replace (length heap0 + length E + k - length heap0)%nat
        with (length E + k)%nat by lia.
      rewrite lookup_app_r by lia.
      replace (length E + k - length E)%nat with k by lia.
      exact Ho.
  - intros listing f. unfold ply_files.
    rewrite !list_elem_of_In, filter_In, endswith_spec. reflexivity.
Qed.

Lemma load_meshes_lists_witness :
  ecs_objects scene_loaded = seq 1 1
  ∧ cell_objects scene_loaded = seq (1 + 1) 1
  ∧ all_objects scene_loaded = ecs_objects scene_loaded ++ cell_objects scene_loaded
  ∧ NoDup (all_objects scene_loaded)
  ∧ length (objects scene_loaded) = (1 + 1 + 1)%nat
  ∧ (∀ h, (h < 1)%nat → objects scene_loaded !! h = [plane] !! h)
  ∧ (∀ k f, ply_files ["a.ply"; "notes.txt"]%string !! k = Some f →
       ∃ mesh, import_box (os_path_join ecs_dir f) = Some mesh
         ∧ objects scene_loaded !! (1 + k)%nat
           = Some (set_name (keep_name (1 + k)%nat (String.append "ECS_" f))
                            mesh))
  ∧ (∀ k f, ply_files ["b.ply"]%string !! k = Some f →
       ∃ mesh, import_box (os_path_join cells_dir f) = Some mesh
         ∧ objects scene_loaded !! (1 + 1 + k)%nat
           = Some (set_name
                     (keep_name (1 + 1 + k)%nat (String.append "Cell_" f))
                     mesh)).
Proof.
  refine (proj1 (proj2 (load_meshes_lists import_box keep_name
                          ["a.ply"; "notes.txt"]%string ["b.ply"]%string
                          [plane])) scene_loaded _).
  vm_compute. reflexivity.
Defined.
